(** * go-mocktesting: a recording double of [*testing.T]

    Shallow embedding of [t.go] and [mocktesting.go] (package
    [mocktesting]) together with the properties of the double's state
    machine: failure counting, abort signalling, logging, sub-test naming,
    failure propagation and configuration inheritance.

    Layout:
    - [Go_int]  : Go's [int] with its wrap-around;
    - [Fmt]     : the part of package [fmt] the double relies on;
    - [Strs]    : [strings.ReplaceAll] for a one-byte pattern;
    - the state monad [M] with the three ways a goroutine can end;
    - the record [T], its methods, the store of [*T] objects, [Run];
    - [prog], the test programs that drive the double;
    - lemmas and theorems. *)

From Stdlib Require Import ZArith List Ascii String Bool Lia.
From stdpp Require Import base option list strings gmap pretty.

Open Scope string_scope.
Open Scope Z_scope.

(** ** Go's [int] *)

Module Go_int.

(** [int] is 64 bits wide on the targets considered here; signed
    overflow wraps around (two's complement). *)
Definition bits : Z := 64.
Definition max_int : Z := 2 ^ (bits - 1) - 1.
Definition min_int : Z := - 2 ^ (bits - 1).

Definition wrap (z : Z) : Z :=
  (z + 2 ^ (bits - 1)) mod 2 ^ bits - 2 ^ (bits - 1).

(** [x++] *)
Definition incr (x : Z) : Z := wrap (x + 1).

Definition in_range (z : Z) : Prop := min_int <= z <= max_int.

End Go_int.

(** ** Package [fmt] *)

Module Fmt.

(** The dynamic values handed to [args ...interface{}].  [VErr] is an
    [error], carried by the text its [Error()] method returns. *)
Inductive value : Type :=
| VStr (s : string)
| VInt (z : Z)
| VBool (b : bool)
| VErr (msg : string).

Definition is_string (v : value) : bool :=
  match v with VStr _ => true | _ => false end.

(** The default form, verb [%v]. *)
Definition fmt_v (v : value) : string :=
  match v with
  | VStr s => s
  | VInt z => pretty z
  | VBool true => "true"
  | VBool false => "false"
  | VErr m => m
  end.

Definition type_name (v : value) : string :=
  match v with
  | VStr _ => "string"
  | VInt _ => "int"
  | VBool _ => "bool"
  | VErr _ => "*fmt.wrapError"
  end.

Definition newline : ascii := ascii_of_nat 10.
Definition nl : string := String newline "".

(** [fmt.Sprintln]: the operands in their default form, a space between
    every two of them, and a newline at the end. *)
Fixpoint join_space (l : list string) : string :=
  match l with
  | [] => ""
  | [s] => s
  | s :: rest => s +:+ " " +:+ join_space rest
  end.

Definition Sprintln (args : list value) : string :=
  join_space (map fmt_v args) +:+ nl.

(** [fmt.Sprintf], for formats built from plain text, [%%] and the verbs
    [%v], [%s] and [%d] without flags.  A verb that does not fit its
    operand, or any other verb character, is rendered the way [fmt]
    renders a bad verb; a missing operand and left-over operands are
    reported the way [fmt] reports them. *)
Definition bad_verb (c : ascii) (v : value) : string :=
  "%!" +:+ String c ("(" +:+ type_name v +:+ "=" +:+ fmt_v v +:+ ")").

Definition verb (c : ascii) (v : value) : string :=
  match c, v with
  | "v"%char, _ => fmt_v v
  | "s"%char, VStr s => s
  | "s"%char, VErr m => m
  | "d"%char, VInt z => pretty z
  | _, _ => bad_verb c v
  end.

Fixpoint extra_list (args : list value) : string :=
  match args with
  | [] => ""
  | [v] => type_name v +:+ "=" +:+ fmt_v v
  | v :: rest => type_name v +:+ "=" +:+ fmt_v v +:+ ", " +:+ extra_list rest
  end.

Definition extra (args : list value) : string :=
  match args with
  | [] => ""
  | _ => "%!(EXTRA " +:+ extra_list args +:+ ")"
  end.

Fixpoint Sprintf (format : string) (args : list value) : string :=
  match format with
  | "" => extra args
  | String "%" "" => "%!(NOVERB)" +:+ extra args
  | String "%" (String "%" rest) => String "%" (Sprintf rest args)
  | String "%" (String c rest) =>
      match args with
      | [] => "%!" +:+ String c "(MISSING)" +:+ Sprintf rest []
      | v :: args' => verb c v +:+ Sprintf rest args'
      end
  | String c rest => String c (Sprintf rest args)
  end.

(** [fmt.Sprintf("%02d", i)] for a counter [i >= 0]: decimal, padded
    with a zero on the left to a width of at least two. *)
Definition Sprintf_02d (i : nat) : string :=
  if (i <? 10)%nat then "0" +:+ pretty i else pretty i.

(** [fmt.Errorf(prefix + "%w", err)]: the message of the wrapping error. *)
Definition Errorf_w (prefix : string) (err : string) : string :=
  prefix +:+ err.

End Fmt.

(** ** Package [strings] *)

Module Strs.

(** [strings.ReplaceAll(s, old, new)] where [old] is one byte long. *)
Fixpoint ReplaceAll (s : string) (old : ascii) (new : string) : string :=
  match s with
  | "" => ""
  | String c rest =>
      if Ascii.eqb c old then new +:+ ReplaceAll rest old new
      else String c (ReplaceAll rest old new)
  end.

Fixpoint contains (s : string) (c : ascii) : bool :=
  match s with
  | "" => false
  | String d rest => Ascii.eqb d c || contains rest c
  end.

(** [s[i] == c], for an index inside [s]. *)
Definition byte_is (s : string) (i : nat) (c : ascii) : bool :=
  match String.get i s with
  | Some d => Ascii.eqb d c
  | None => false
  end.

End Strs.

(** ** Outcomes of a call and the state monad *)

(** A call either returns, ends its goroutine ([runtime.Goexit]) or
    panics.  Deferred unlocks run in all three cases, and the double is
    driven by one goroutine at a time ([Go] joins before it returns), so
    the mutex [mux] does not appear in the state. *)
Inductive res (A : Type) : Type :=
| Ret (a : A)
| Goexit
| Panic (err : string).
Arguments Ret {A} a.
Arguments Goexit {A}.
Arguments Panic {A} err.

Definition M (S A : Type) : Type := S -> res A * S.

Global Instance M_ret {S} : MRet (M S) := fun A a s => (Ret a, s).

Global Instance M_bind {S} : MBind (M S) := fun A B k m s =>
  match m s with
  | (Ret a, s') => k a s'
  | (Goexit, s') => (Goexit, s')
  | (Panic e, s') => (Panic e, s')
  end.

Definition get {S} : M S S := fun s => (Ret s, s).
Definition modify {S} (f : S -> S) : M S unit := fun s => (Ret tt, f s).
Definition runtime_Goexit {S A} : M S A := fun s => (Goexit, s).
Definition panic {S A} (err : string) : M S A := fun s => (Panic err, s).

(** [mocktesting.Go]: run [f] in a new goroutine and wait until that
    goroutine has exited.  A [Goexit] inside [f] ends only the new
    goroutine; an unrecovered panic ends the program. *)
Definition Go {S} (f : M S unit) : M S unit := fun s =>
  match f s with
  | (Ret _, s') => (Ret tt, s')
  | (Goexit, s') => (Ret tt, s')
  | (Panic e, s') => (Panic e, s')
  end.

(** ** The double *)

(** [time.Time] is carried by its offset in nanoseconds from the zero
    value [time.Time{}], [time.Duration] by its nanoseconds. *)
Definition Time : Type := Z.
Definition Duration : Type := Z.
Definition Time_zero : Time := 0.
Definition Time_Add (t : Time) (d : Duration) : Time := t + d.
Definition Minute : Duration := 60 * 1000000000.

(** Objects of type [*T] live in a store and are named by their address. *)
Abbreviation ptr := nat.

(** Implementations of the interface [TestingT]: a [*T] of this package,
    or a reporter owned by the caller, known by an identifier and by
    whether its [Fatal] ends the calling goroutine (as [*testing.T] does)
    or returns. *)
Inductive TestingT : Type :=
| MockT (p : ptr)
| Extern (id : nat) (exits : bool).

(** The result of [ioutil.TempDir]: the directory and the error, if any. *)
Definition mkdir_result : Type := (string * option string)%type.

(** The struct [T].  Slices are lists ([nil] is the empty list), maps are
    finite maps ([nil] is the empty map), a [func()] handed to [Cleanup] is
    carried by its name.  The embedded [*testing.T] is always [nil] and
    left out. *)
Record T : Type := mkT {
  name : string;
  abort : bool;
  baseTempdir : string;
  testingT : option TestingT;
  deadline : Time;
  timeout : bool;
  skipped : bool;
  failed : Z;
  parallel : bool;
  output : list string;
  helpers : list string;
  aborted : bool;
  cleanups : list string;
  env : gmap string string;
  subtests : list ptr;
  tempdirs : list string;
  subtestNames : gmap string bool;
  mkdirTempFunc : option (string -> string -> mkdir_result)
}.

Definition set_abort (v : bool) (t : T) : T :=
  mkT (name t) v (baseTempdir t) (testingT t) (deadline t) (timeout t)
      (skipped t) (failed t) (parallel t) (output t) (helpers t) (aborted t)
      (cleanups t) (env t) (subtests t) (tempdirs t) (subtestNames t)
      (mkdirTempFunc t).
Definition set_baseTempdir (v : string) (t : T) : T :=
  mkT (name t) (abort t) v (testingT t) (deadline t) (timeout t)
      (skipped t) (failed t) (parallel t) (output t) (helpers t) (aborted t)
      (cleanups t) (env t) (subtests t) (tempdirs t) (subtestNames t)
      (mkdirTempFunc t).
Definition set_testingT (v : option TestingT) (t : T) : T :=
  mkT (name t) (abort t) (baseTempdir t) v (deadline t) (timeout t)
      (skipped t) (failed t) (parallel t) (output t) (helpers t) (aborted t)
      (cleanups t) (env t) (subtests t) (tempdirs t) (subtestNames t)
      (mkdirTempFunc t).
Definition set_deadline (v : Time) (t : T) : T :=
  mkT (name t) (abort t) (baseTempdir t) (testingT t) v (timeout t)
      (skipped t) (failed t) (parallel t) (output t) (helpers t) (aborted t)
      (cleanups t) (env t) (subtests t) (tempdirs t) (subtestNames t)
      (mkdirTempFunc t).
Definition set_timeout (v : bool) (t : T) : T :=
  mkT (name t) (abort t) (baseTempdir t) (testingT t) (deadline t) v
      (skipped t) (failed t) (parallel t) (output t) (helpers t) (aborted t)
      (cleanups t) (env t) (subtests t) (tempdirs t) (subtestNames t)
      (mkdirTempFunc t).
Definition set_skipped (v : bool) (t : T) : T :=
  mkT (name t) (abort t) (baseTempdir t) (testingT t) (deadline t) (timeout t)
      v (failed t) (parallel t) (output t) (helpers t) (aborted t)
      (cleanups t) (env t) (subtests t) (tempdirs t) (subtestNames t)
      (mkdirTempFunc t).
Definition set_failed (v : Z) (t : T) : T :=
  mkT (name t) (abort t) (baseTempdir t) (testingT t) (deadline t) (timeout t)
      (skipped t) v (parallel t) (output t) (helpers t) (aborted t)
      (cleanups t) (env t) (subtests t) (tempdirs t) (subtestNames t)
      (mkdirTempFunc t).
Definition set_parallel (v : bool) (t : T) : T :=
  mkT (name t) (abort t) (baseTempdir t) (testingT t) (deadline t) (timeout t)
      (skipped t) (failed t) v (output t) (helpers t) (aborted t)
      (cleanups t) (env t) (subtests t) (tempdirs t) (subtestNames t)
      (mkdirTempFunc t).
Definition set_output (v : list string) (t : T) : T :=
  mkT (name t) (abort t) (baseTempdir t) (testingT t) (deadline t) (timeout t)
      (skipped t) (failed t) (parallel t) v (helpers t) (aborted t)
      (cleanups t) (env t) (subtests t) (tempdirs t) (subtestNames t)
      (mkdirTempFunc t).
Definition set_helpers (v : list string) (t : T) : T :=
  mkT (name t) (abort t) (baseTempdir t) (testingT t) (deadline t) (timeout t)
      (skipped t) (failed t) (parallel t) (output t) v (aborted t)
      (cleanups t) (env t) (subtests t) (tempdirs t) (subtestNames t)
      (mkdirTempFunc t).
Definition set_aborted (v : bool) (t : T) : T :=
  mkT (name t) (abort t) (baseTempdir t) (testingT t) (deadline t) (timeout t)
      (skipped t) (failed t) (parallel t) (output t) (helpers t) v
      (cleanups t) (env t) (subtests t) (tempdirs t) (subtestNames t)
      (mkdirTempFunc t).
Definition set_cleanups (v : list string) (t : T) : T :=
  mkT (name t) (abort t) (baseTempdir t) (testingT t) (deadline t) (timeout t)
      (skipped t) (failed t) (parallel t) (output t) (helpers t) (aborted t)
      v (env t) (subtests t) (tempdirs t) (subtestNames t)
      (mkdirTempFunc t).
Definition set_env (v : gmap string string) (t : T) : T :=
  mkT (name t) (abort t) (baseTempdir t) (testingT t) (deadline t) (timeout t)
      (skipped t) (failed t) (parallel t) (output t) (helpers t) (aborted t)
      (cleanups t) v (subtests t) (tempdirs t) (subtestNames t)
      (mkdirTempFunc t).
Definition set_subtests (v : list ptr) (t : T) : T :=
  mkT (name t) (abort t) (baseTempdir t) (testingT t) (deadline t) (timeout t)
      (skipped t) (failed t) (parallel t) (output t) (helpers t) (aborted t)
      (cleanups t) (env t) v (tempdirs t) (subtestNames t)
      (mkdirTempFunc t).
Definition set_tempdirs (v : list string) (t : T) : T :=
  mkT (name t) (abort t) (baseTempdir t) (testingT t) (deadline t) (timeout t)
      (skipped t) (failed t) (parallel t) (output t) (helpers t) (aborted t)
      (cleanups t) (env t) (subtests t) v (subtestNames t)
      (mkdirTempFunc t).
Definition set_subtestNames (v : gmap string bool) (t : T) : T :=
  mkT (name t) (abort t) (baseTempdir t) (testingT t) (deadline t) (timeout t)
      (skipped t) (failed t) (parallel t) (output t) (helpers t) (aborted t)
      (cleanups t) (env t) (subtests t) (tempdirs t) v
      (mkdirTempFunc t).

(** The zero value [T{}]. *)
Definition T_zero : T :=
  mkT "" false "" None Time_zero false false 0 false [] [] false [] ∅ [] []
      ∅ None.

(** *** Construction and options *)

Inductive Option : Type :=
| WithTimeout (d : Duration)
| WithDeadline (d : Time)
| WithNoAbort
| WithBaseTempdir (dir : string)
| WithTestingT (r : option TestingT).

(** [opt.apply(t)]; [now] is what [time.Now()] reads when the option is
    applied. *)
Definition apply (now : Time) (opt : Option) (t : T) : T :=
  match opt with
  | WithTimeout d =>
      if 0 <? d then set_deadline (Time_Add now d) (set_timeout true t)
      else set_deadline Time_zero (set_timeout false t)
  | WithDeadline d =>
      if negb (d =? Time_zero) then set_deadline d (set_timeout true t)
      else set_deadline Time_zero (set_timeout false t)
  | WithNoAbort => set_abort false t
  | WithBaseTempdir dir =>
      if negb (String.eqb dir "") then set_baseTempdir dir t else t
  | WithTestingT r => set_testingT r t
  end.

(** [NewT(name, options...)]; [tmp] is what [os.TempDir()] returns. *)
Definition NewT (now : Time) (tmp : string) (nm : string)
    (options : list Option) : T :=
  let t := mkT (Strs.ReplaceAll nm " " "_") true tmp None
               (Time_Add now (10 * Minute)) true
               false 0 false [] [] false [] ∅ [] [] ∅ None in
  fold_left (fun t opt => apply now opt t) options t.

(** *** Methods that touch the receiver only *)

Definition goexit : M T unit :=
  modify (set_aborted true);;
  t ← get;
  if abort t then runtime_Goexit else mret tt.

Definition Name (t : T) : string := name t.

Definition Deadline (t : T) : Time * bool := (deadline t, timeout t).

Definition Fail : M T unit :=
  modify (fun t => set_failed (Go_int.incr (failed t)) t).

Definition FailNow : M T unit := Fail;; goexit.

Definition Failed (t : T) : bool := 0 <? failed t.

Definition Log (args : list Fmt.value) : M T unit :=
  modify (fun t => set_output (output t ++ [Fmt.Sprintln args]) t).

Definition Logf (format : string) (args : list Fmt.value) : M T unit :=
  let format :=
    if (String.length format =? 0)%nat
       || negb (Strs.byte_is format (String.length format - 1) Fmt.newline)
    then format +:+ Fmt.nl
    else format in
  modify (fun t => set_output (output t ++ [Fmt.Sprintf format args]) t).

Definition Error (args : list Fmt.value) : M T unit := Log args;; Fail.

Definition Errorf (format : string) (args : list Fmt.value) : M T unit :=
  Logf format args;; Fail.

Definition Fatal (args : list Fmt.value) : M T unit := Log args;; FailNow.

Definition Fatalf (format : string) (args : list Fmt.value) : M T unit :=
  Logf format args;; FailNow.

Definition Parallel : M T unit := modify (set_parallel true).

Definition SkipNow : M T unit := modify (set_skipped true);; goexit.

Definition Skip (args : list Fmt.value) : M T unit := Log args;; SkipNow.

Definition Skipf (format : string) (args : list Fmt.value) : M T unit :=
  Logf format args;; SkipNow.

Definition Skipped (t : T) : bool := skipped t.

(** [Helper()]: [caller] is what [runtime.Caller(1)] resolves to, [None]
    when it reports [!ok]. *)
Definition Helper (caller : option string) : M T unit :=
  match caller with
  | None => mret tt
  | Some fnName => modify (fun t => set_helpers (helpers t ++ [fnName]) t)
  end.

Definition Cleanup (f : string) : M T unit :=
  modify (fun t => set_cleanups (cleanups t ++ [f]) t).

Definition Setenv (key value : string) : M T unit :=
  modify (fun t => if negb (String.eqb key "") then set_env (<[key := value]> (env t)) t
                   else t).

Definition Output (t : T) : list string := output t.
Definition FailedCount (t : T) : Z := failed t.
Definition Aborted (t : T) : bool := aborted t.
Definition Paralleled (t : T) : bool := parallel t.
Definition Subtests (t : T) : list ptr := subtests t.
Definition TempDirs (t : T) : list string := tempdirs t.

(** *** The store of doubles and the host *)

(** What the double reads from its host: the clock ([time.Now], one
    reading per call), [os.TempDir()] and [ioutil.TempDir] (one result per
    call). *)
Record host : Type := mkHost {
  clock : nat -> Time;
  os_TempDir : string;
  ioutil_TempDir : nat -> string -> string -> mkdir_result
}.

Record world : Type := mkWorld {
  heap : list T;
  hst : host;
  ticks : nat;
  mkdirs : nat;
  reports : list (nat * list Fmt.value)
}.

Definition set_heap (h : list T) (w : world) : world :=
  mkWorld h (hst w) (ticks w) (mkdirs w) (reports w).

Definition W (A : Type) : Type := M world A.

Definition nil_deref : string :=
  "runtime error: invalid memory address or nil pointer dereference".

(** Read the object at [p]. *)
Definition get_T (p : ptr) : W T := fun w =>
  match heap w !! p with
  | Some t => (Ret t, w)
  | None => (Panic nil_deref, w)
  end.

(** Run a method with receiver [p]. *)
Definition with_T {A} (p : ptr) (m : M T A) : W A := fun w =>
  match heap w !! p with
  | Some t => let '(r, t') := m t in (r, set_heap (<[p := t']> (heap w)) w)
  | None => (Panic nil_deref, w)
  end.

(** [&T{...}]: a new object, at a fresh address. *)
Definition alloc (t : T) : W ptr := fun w =>
  (Ret (length (heap w)), set_heap (heap w ++ [t]) w).

Definition time_Now : W Time := fun w =>
  (Ret (clock (hst w) (ticks w)),
   mkWorld (heap w) (hst w) (S (ticks w)) (mkdirs w) (reports w)).

Definition call_ioutil_TempDir (dir pattern : string) : W mkdir_result := fun w =>
  (Ret (ioutil_TempDir (hst w) (mkdirs w) dir pattern),
   mkWorld (heap w) (hst w) (ticks w) (S (mkdirs w)) (reports w)).

(** [r.Fatal(args...)] through the interface [TestingT]. *)
Definition TestingT_Fatal (r : TestingT) (args : list Fmt.value) : W unit :=
  match r with
  | MockT q => with_T q (Fatal args)
  | Extern id exits =>
      modify (fun w => mkWorld (heap w) (hst w) (ticks w) (mkdirs w)
                               (reports w ++ [(id, args)]));;
      if exits then runtime_Goexit else mret tt
  end.

Definition internalError (p : ptr) (err : string) : W unit :=
  let err := Fmt.Errorf_w "mocktesting: " err in
  t ← get_T p;
  match testingT t with
  | Some r => TestingT_Fatal r [Fmt.VErr err]
  | None => panic err
  end.

Definition TempDir (p : ptr) : W string :=
  t ← get_T p;
  '(dir, err) ← match mkdirTempFunc t with
                | Some f => mret (f (baseTempdir t) "go-mocktesting*")
                | None => call_ioutil_TempDir (baseTempdir t) "go-mocktesting*"
                end;
  match err with
  | Some e =>
      internalError p (Fmt.Errorf_w "TempDir() failed to create directory: " e)
  | None => mret tt
  end;;
  with_T p (modify (fun t => set_tempdirs (tempdirs t ++ [dir]) t));;
  mret dir.

(** *** Sub-tests *)

(** [t.subtestNames[n]]: a missing key reads as [false]. *)
Definition used (m : gmap string bool) (n : string) : bool :=
  default false (m !! n).

(** The candidate tried in round [i] of the loop of [newSubTestName]. *)
Definition candidate (nm : string) (i : nat) : string :=
  nm +:+ "#" +:+ Fmt.Sprintf_02d i.

(** The loop [for { ... i++ }] of [newSubTestName], for at most [fuel]
    rounds. *)
Fixpoint newSubTestName_loop (fuel : nat) (m : gmap string bool)
    (nm : string) (i : nat) : option string :=
  match fuel with
  | O => None
  | S fuel' =>
      let n := candidate nm i in
      if negb (used m n) then Some n
      else newSubTestName_loop fuel' m nm (S i)
  end.

(** [t.newSubTestName(name)].  One round more than there are keys in the
    map is always enough ([newSubTestName_loop_total]), so the fall-back
    value is never taken. *)
Definition newSubTestName (t : T) (nm : string) : string :=
  let nm := Strs.ReplaceAll nm " " "_" in
  if negb (used (subtestNames t) nm) then nm
  else default nm (newSubTestName_loop (S (size (subtestNames t)))
                                       (subtestNames t) nm 1).

(** [Run], up to the point where the body is started: the child is
    built, appended to [subtests] and its name is marked as used. *)
Definition Run_begin (p : ptr) (nm : string) : W ptr :=
  t ← get_T p;
  let nm := newSubTestName t nm in
  let fullname :=
    if negb (String.eqb (name t) "") then name t +:+ "/" +:+ nm else nm in
  now ← time_Now;
  tmp ← (fun w => (Ret (os_TempDir (hst w)), w));
  let subtest := NewT now tmp fullname [] in
  let subtest := set_abort (abort t) subtest in
  let subtest := set_baseTempdir (baseTempdir t) subtest in
  let subtest := set_testingT (testingT t) subtest in
  let subtest := set_deadline (deadline t) subtest in
  let subtest := set_timeout (timeout t) subtest in
  c ← alloc subtest;
  with_T p (modify (fun t =>
    set_subtestNames (<[nm := true]> (subtestNames t))
                     (set_subtests (subtests t ++ [c]) t)));;
  mret c.

(** [Run], after the body has ended. *)
Definition Run_end (p c : ptr) : W bool :=
  subtest ← get_T c;
  (if Failed subtest then with_T p Fail else mret tt);;
  subtest ← get_T c;
  mret (negb (Failed subtest)).

(** [t.Run(name, f)]. *)
Definition Run (p : ptr) (nm : string) (f : ptr -> W unit) : W bool :=
  c ← Run_begin p nm;
  Go (f c);;
  Run_end p c.

(** ** Test programs *)

(** The calls a test can make on a double, apart from [Run]. *)
Inductive method : Type :=
| mFail
| mFailNow
| mError (args : list Fmt.value)
| mErrorf (format : string) (args : list Fmt.value)
| mFatal (args : list Fmt.value)
| mFatalf (format : string) (args : list Fmt.value)
| mLog (args : list Fmt.value)
| mLogf (format : string) (args : list Fmt.value)
| mParallel
| mSkip (args : list Fmt.value)
| mSkipf (format : string) (args : list Fmt.value)
| mSkipNow
| mHelper (caller : option string)
| mCleanup (f : string)
| mSetenv (key value : string)
| mTempDir.

(** The calls that touch the receiver only; [TempDir] is not one of them. *)
Definition call_T (m : method) : M T unit :=
  match m with
  | mFail => Fail
  | mFailNow => FailNow
  | mError args => Error args
  | mErrorf format args => Errorf format args
  | mFatal args => Fatal args
  | mFatalf format args => Fatalf format args
  | mLog args => Log args
  | mLogf format args => Logf format args
  | mParallel => Parallel
  | mSkip args => Skip args
  | mSkipf format args => Skipf format args
  | mSkipNow => SkipNow
  | mHelper caller => Helper caller
  | mCleanup f => Cleanup f
  | mSetenv key value => Setenv key value
  | mTempDir => mret tt
  end.

Definition call (p : ptr) (m : method) : W unit :=
  match m with
  | mTempDir => TempDir p;; mret tt
  | _ => with_T p (call_T m)
  end.

Inductive query : Type := qFailed | qSkipped | qAborted | qParalleled.

Definition ask (q : query) (t : T) : bool :=
  match q with
  | qFailed => Failed t
  | qSkipped => Skipped t
  | qAborted => Aborted t
  | qParalleled => Paralleled t
  end.

(** A test program.  Doubles are named by position in the list of the
    doubles in scope: inside the body of a [Run] position [0] is the
    sub-test handed to the body, and the enclosing doubles follow (a Go
    closure sees them all).
    - [PCall x m]: [x.m(...)];
    - [PRun x name body onTrue onFalse]:
      [if x.Run(name, func(t testing.TB) { body }) { onTrue } else { onFalse }];
    - [PIf q x th el]: [if x.q() { th } else { el }];
    - [PSub x i body]: [st := x.Subtests()[i]; body], with [st] at
      position [0] in [body]. *)
Inductive prog : Type :=
| PDone
| PSeq (a b : prog)
| PCall (x : nat) (m : method)
| PRun (x : nat) (nm : string) (body onTrue onFalse : prog)
| PIf (q : query) (x : nat) (th el : prog)
| PSub (x : nat) (i : nat) (body : prog).

(** The double in scope at position [x]; a variable that is not bound
    holds [nil]. *)
Definition var (scope : list ptr) (x : nat) : W ptr := fun w =>
  match scope !! x with
  | Some p => (Ret p, w)
  | None => (Panic nil_deref, w)
  end.

Fixpoint exec (pr : prog) (scope : list ptr) : W unit :=
  match pr with
  | PDone => mret tt
  | PSeq a b => exec a scope;; exec b scope
  | PCall x m => p ← var scope x; call p m
  | PRun x nm body onTrue onFalse =>
      p ← var scope x;
      passed ← Run p nm (fun c => exec body (c :: scope));
      if (passed : bool) then exec onTrue scope else exec onFalse scope
  | PIf q x th el =>
      p ← var scope x;
      t ← get_T p;
      if ask q t then exec th scope else exec el scope
  | PSub x i body =>
      p ← var scope x;
      t ← get_T p;
      match Subtests t !! i with
      | Some c => exec body (c :: scope)
      | None => panic "runtime error: index out of range"
      end
  end.

(** An upper bound on the number of times [exec] increments the failure
    counter of any one double. *)
Fixpoint calls (pr : prog) : nat :=
  match pr with
  | PDone => 0
  | PSeq a b => calls a + calls b
  | PCall _ _ => 1
  | PRun _ _ body onTrue onFalse => 1 + calls body + calls onTrue + calls onFalse
  | PIf _ _ th el => calls th + calls el
  | PSub _ _ body => calls body
  end.

(** ** Notions used in the statements *)

Definition no_space (s : string) : Prop := Strs.contains s " " = false.

(** A family of relations between the state before and the state after,
    graded by a budget: [rel k a b] allows at most [k] increments of a
    failure counter on the way from [a] to [b]. *)
Class Graded {S : Type} (rel : nat -> S -> S -> Prop) : Prop := {
  graded_refl : forall s, rel 0%nat s s;
  graded_trans : forall j k a b c, rel j a b -> rel k b c -> rel (j + k)%nat a c;
  graded_weaken : forall j k a b, (j <= k)%nat -> rel j a b -> rel k a b
}.

(** Whatever the outcome, [m] takes a state to a related one. *)
Definition frames {S A} (rel : nat -> S -> S -> Prop) (k : nat) (m : M S A) : Prop :=
  forall s, rel k s (snd (m s)).

(** The configuration handed down to sub-tests. *)
Definition config (t : T) : bool * Time * bool * string * option TestingT :=
  (abort t, deadline t, timeout t, baseTempdir t, testingT t).

(** [R k t t']: from [t] to [t'] the name and the settings are the same,
    the flags have not been reset, and the failure counter went through at
    most [k] increments. *)
Record R (k : nat) (t t' : T) : Prop := mkR {
  R_name : name t' = name t;
  R_config : config t' = config t;
  R_mkdirTempFunc : mkdirTempFunc t' = mkdirTempFunc t;
  R_skipped : skipped t = true -> skipped t' = true;
  R_aborted : aborted t = true -> aborted t' = true;
  R_parallel : parallel t = true -> parallel t' = true;
  R_failed : exists j, (j <= k)%nat /\ failed t' = Nat.iter j Go_int.incr (failed t)
}.

(** [ext k w w']: every double of [w] is still there in [w'], related to
    what it was by [R k]. *)
Definition ext (k : nat) (w w' : world) : Prop :=
  forall p t, heap w !! p = Some t ->
    exists t', heap w' !! p = Some t' /\ R k t t'.

(** *** Failure-reporting calls, each in a goroutine of its own *)

Inductive failcall : Type :=
| cFail
| cFailNow
| cError (args : list Fmt.value)
| cErrorf (format : string) (args : list Fmt.value)
| cFatal (args : list Fmt.value)
| cFatalf (format : string) (args : list Fmt.value).

Definition issue (c : failcall) : M T unit :=
  match c with
  | cFail => Fail
  | cFailNow => FailNow
  | cError args => Error args
  | cErrorf format args => Errorf format args
  | cFatal args => Fatal args
  | cFatalf format args => Fatalf format args
  end.

(** [Go(func() { t.c1() }); Go(func() { t.c2() }); ...] *)
Fixpoint isolated (cs : list failcall) : M T unit :=
  match cs with
  | [] => mret tt
  | c :: rest => Go (issue c);; isolated rest
  end.

(** *** The entry of [Logf] as the specification words it *)

(** The specification's wording of [Logf]: render first, then add a
    newline when the rendered text does not end in one. *)
Definition Logf_entry_by_result (format : string) (args : list Fmt.value) : string :=
  let r := Fmt.Sprintf format args in
  if (String.length r =? 0)%nat
     || negb (Strs.byte_is r (String.length r - 1) Fmt.newline)
  then r +:+ Fmt.nl
  else r.

(** What the code does: the newline goes to the format. *)
Definition Logf_format (format : string) : string :=
  if (String.length format =? 0)%nat
     || negb (Strs.byte_is format (String.length format - 1) Fmt.newline)
  then format +:+ Fmt.nl
  else format.

(** *** A host and a store to run examples on *)

Definition demo_host : host :=
  mkHost (fun n => 1000 + Z.of_nat n) "/tmp"
         (fun n dir _ => (dir +:+ "/go-mocktesting" +:+ pretty n, None)).

Definition demo_T : T := NewT 1000 "/tmp" "Parent" [].

Definition demo_world : world := mkWorld [demo_T] demo_host 0 0 [].

(** *** Creating the directory *)

(** The directory creation of [TempDir]: the result of [t.mkdirTempFunc] if
    that is set, of [ioutil.TempDir] otherwise, and the world after it. *)
Definition mkdir_of (t : T) (w : world) : mkdir_result * world :=
  match mkdirTempFunc t with
  | Some f => (f (baseTempdir t) "go-mocktesting*", w)
  | None =>
      (ioutil_TempDir (hst w) (mkdirs w) (baseTempdir t) "go-mocktesting*",
       mkWorld (heap w) (hst w) (ticks w) (S (mkdirs w)) (reports w))
  end.

(** The text of the error that [TempDir] reports. *)
Definition TempDir_error (e : string) : string :=
  "mocktesting: TempDir() failed to create directory: " +:+ e.

Definition add_report (id : nat) (args : list Fmt.value) (w : world) : world :=
  mkWorld (heap w) (hst w) (ticks w) (mkdirs w) (reports w ++ [(id, args)]).

Definition record_tempdir (dir : string) (t : T) : T :=
  set_tempdirs (tempdirs t ++ [dir]) t.

(** A double whose directory creation fails, with a double as reporter. *)
Definition failing_mkdir : string -> string -> mkdir_result :=
  fun _ _ => ("", Some "can't create dir").

Definition reporter_T : T :=
  set_abort true (set_failed 0 (mkT "real" true "" None Time_zero false false 0
    false [] [] false [] ∅ [] [] ∅ None)).

Definition broken_T (r : option TestingT) : T :=
  mkT "" false "" r Time_zero false false 0 false [] [] false [] ∅ [] [] ∅
      (Some failing_mkdir).

Definition broken_world (r : option TestingT) : world :=
  mkWorld [reporter_T; broken_T r] demo_host 0 0 [].

(** *** The pieces of [Run_begin] *)

(** The sub-test that [Run] builds for the parent [t]: [NewT(fullname)]
    with the settings of [t] written over its own. *)
Definition subtest_of (t : T) (now : Time) (tmp : string) (nm : string) : T :=
  let fullname :=
    if negb (String.eqb (name t) "") then name t +:+ "/" +:+ nm else nm in
  set_timeout (timeout t)
    (set_deadline (deadline t)
       (set_testingT (testingT t)
          (set_baseTempdir (baseTempdir t)
             (set_abort (abort t) (NewT now tmp fullname []))))).

(** The parent after [Run_begin]: the child [c] appended, its name used. *)
Definition register_subtest (nm : string) (c : ptr) (t : T) : T :=
  set_subtestNames (<[nm := true]> (subtestNames t))
                   (set_subtests (subtests t ++ [c]) t).

(** The world in which the body of [t.Run(nm, ...)] starts, [t] being the
    double at [p]. *)
Definition world_at_start (p : ptr) (t : T) (nm : string) (w : world) : world :=
  let d := newSubTestName t nm in
  let c := length (heap w) in
  mkWorld
    (<[p := register_subtest d c t]>
       (heap w ++ [subtest_of t (clock (hst w) (ticks w)) (os_TempDir (hst w)) d])%list)
    (hst w) (S (ticks w)) (mkdirs w) (reports w).

(** [n] times [t.Run("a", func(t testing.TB) {})] on the double in scope. *)
Fixpoint same_name_runs (n : nat) : prog :=
  match n with
  | O => PDone
  | S k => PSeq (PRun 0 "a" PDone PDone PDone) (same_name_runs k)
  end.

(** ** Inspection methods and classifications used further on *)

(** [Getenv()], [HelperNames()], [CleanupNames()]. *)
Definition Getenv (t : T) : gmap string string := env t.
Definition HelperNames (t : T) : list string := helpers t.
Definition CleanupNames (t : T) : list string := cleanups t.

Definition is_WithNoAbort (opt : Option) : bool :=
  match opt with WithNoAbort => true | _ => false end.

(** The calls that go through [Fail]. *)
Definition counts_failure (m : method) : bool :=
  match m with
  | mFail | mFailNow | mError _ | mErrorf _ _ | mFatal _ | mFatalf _ _ => true
  | _ => false
  end.




(** A computation that never ends its goroutine. *)
Definition no_Goexit {S A} (m : M S A) : Prop := forall s, fst (m s) <> Goexit.

(** [grows t t']: from [t] to [t'] the recorded sequences have only been
    appended to, and the names used for sub-tests are still used. *)
Record grows (t t' : T) : Prop := mkGrows {
  grows_output : output t `prefix_of` output t';
  grows_helpers : helpers t `prefix_of` helpers t';
  grows_cleanups : cleanups t `prefix_of` cleanups t';
  grows_subtests : subtests t `prefix_of` subtests t';
  grows_tempdirs : tempdirs t `prefix_of` tempdirs t';
  grows_subtestNames :
    forall n, used (subtestNames t) n = true -> used (subtestNames t') n = true
}.

(** The same for every double of a store; the budget plays no part. *)
Definition grows_store (k : nat) (w w' : world) : Prop :=
  forall p t, heap w !! p = Some t ->
    exists t', heap w' !! p = Some t' /\ grows t t'.

(** *** Well-formed stores *)

(** The name [Run] gives to a child, for a parent name and a
    disambiguated name that hold no space. *)
Definition child_name (parent d : string) : string :=
  if String.eqb parent "" then d else parent +:+ "/" +:+ d.

(** What holds of the double [t] at address [p] in a store [h] that was
    built through [NewT] and [Run]: its name has no space; a double that
    reports to another double reports to an older one; its sub-tests are
    younger doubles, named after it and a name it has marked as used; no
    two of its sub-tests have the same name. *)
Record wf_T (h : list T) (p : ptr) (t : T) : Prop := mkWf {
  wf_name : no_space (name t);
  wf_reporter : forall q, testingT t = Some (MockT q) -> (q < p)%nat;
  wf_children : forall i c, subtests t !! i = Some c ->
    (p < c)%nat /\
    exists tc d, h !! c = Some tc /\ used (subtestNames t) d = true /\
      name tc = child_name (name t) d;
  wf_siblings : forall i j ci cj ti tj, i <> j ->
    subtests t !! i = Some ci -> subtests t !! j = Some cj ->
    h !! ci = Some ti -> h !! cj = Some tj -> name ti <> name tj
}.

Definition wf_store (w : world) : Prop :=
  forall p t, heap w !! p = Some t -> wf_T (heap w) p t.

(** [wf_store] before implies [wf_store] after; the budget plays no part. *)
Definition keeps_wf (k : nat) (w w' : world) : Prop := wf_store w -> wf_store w'.

(** Two doubles with the same name, reporter, sub-tests and used names. *)
Definition same_shape (t t' : T) : Prop :=
  name t' = name t /\ testingT t' = testingT t /\
  subtests t' = subtests t /\ subtestNames t' = subtestNames t.

(** [leaf] inside [n] sub-tests, each the only statement of the body of
    the one around it:
    [t.Run("sub", func(t testing.TB) { t.Run("sub", ... { leaf } ...) })]. *)
Fixpoint nested (n : nat) (leaf : prog) : prog :=
  match n with
  | O => leaf
  | S k => PRun 0 "sub" (nested k leaf) PDone PDone
  end.

(** *** [stringsUniq] (mocktesting_test.go) *)

(** [stringsUniq(strs)] collects the strings as the keys of a map and
    returns the keys in the order in which [range] yields them, which Go
    leaves open: [r] is a possible result when it lists the keys, each
    once, in some order. *)
Definition stringsUniq_returns (strs r : list string) : Prop :=
  r ≡ₚ elements (list_to_set strs : gset string).

(** The result for one particular order of the keys. *)
Definition stringsUniq (strs : list string) : list string :=
  elements (list_to_set strs : gset string).

(** *** Failure-reporting calls, one after the other in one goroutine *)

(** [t.c1(); t.c2(); ...] *)
Fixpoint in_sequence (cs : list failcall) : M T unit :=
  match cs with
  | [] => mret tt
  | c :: rest => issue c;; in_sequence rest
  end.

(** The calls that go through [FailNow]. *)
Definition is_terminal (c : failcall) : bool :=
  match c with
  | cFailNow | cFatal _ | cFatalf _ _ => true
  | _ => false
  end.

(** The number of calls up to and including the first terminal one, all
    of them if there is none. *)
Fixpoint issued (cs : list failcall) : nat :=
  match cs with
  | [] => 0
  | c :: rest => if is_terminal c then 1 else S (issued rest)
  end.

(** * Properties *)

(** ** Go's [int] *)

Lemma wrap_id z : Go_int.in_range z -> Go_int.wrap z = z.
Proof.
  unfold Go_int.in_range, Go_int.wrap, Go_int.min_int, Go_int.max_int,
    Go_int.bits.
  intros H. rewrite Z.mod_small; lia.
Qed.

Lemma incr_below_max x :
  Go_int.min_int <= x -> x < Go_int.max_int -> Go_int.incr x = x + 1.
Proof.
  intros Hlo Hhi. unfold Go_int.incr. apply wrap_id.
  unfold Go_int.in_range. lia.
Qed.

Lemma incr_at_max : Go_int.incr Go_int.max_int = Go_int.min_int.
Proof. reflexivity. Qed.

Lemma iter_incr j x :
  Go_int.min_int <= x -> x + Z.of_nat j <= Go_int.max_int ->
  Nat.iter j Go_int.incr x = x + Z.of_nat j.
Proof.
  induction j as [|j IH]; intros Hlo Hhi; simpl.
  - lia.
  - rewrite IH by lia. rewrite incr_below_max; lia.
Qed.

(** ** Decimal counters *)

Lemma pretty_N_go_length x s :
  (String.length s <= String.length (pretty_N_go x s))%nat.
Proof.
  revert s. induction (N.lt_wf_0 x) as [x _ IH]; intros s.
  destruct (decide (0 < x)%N) as [Hx|Hx].
  - rewrite pretty_N_go_step by done.
    etrans; [|apply IH; by apply N.div_lt]. simpl. lia.
  - assert (x = 0%N) as -> by lia. by rewrite pretty_N_go_0.
Qed.

Lemma pretty_nat_length_ge3 (j : nat) :
  (100 <= j)%nat -> (3 <= String.length (pretty j))%nat.
Proof.
  intros Hj. unfold pretty, pretty_nat, pretty, pretty_N.
  destruct (decide _) as [|_]; [lia|].
  set (x := N.of_nat j). assert (100 <= x)%N as Hx by lia. clearbody x.
  assert (10 <= N.div x 10)%N as H1 by (apply N.div_le_lower_bound; lia).
  assert (1 <= N.div (N.div x 10) 10)%N as H2
    by (apply N.div_le_lower_bound; lia).
  rewrite pretty_N_go_step by lia.
  rewrite pretty_N_go_step by lia.
  rewrite pretty_N_go_step by lia.
  etrans; [|apply pretty_N_go_length]. simpl. lia.
Qed.

(** Below one hundred the counter takes exactly two digits, and the first
    one is a zero exactly for the counters below ten. *)
Lemma Sprintf_02d_below_100 (i : nat) :
  (i < 100)%nat ->
  exists c d, Fmt.Sprintf_02d i = String c (String d "") /\
              (c = "0"%char <-> (i < 10)%nat).
Proof.
  intros H.
  do 100 (destruct i as [|i];
    [eexists _, _; split; [vm_compute; reflexivity|
      split; intros Hx; first [reflexivity | lia | discriminate Hx]]|]).
  lia.
Qed.

Lemma Sprintf_02d_from_100 (i : nat) :
  (100 <= i)%nat -> (3 <= String.length (Fmt.Sprintf_02d i))%nat.
Proof.
  intros H. unfold Fmt.Sprintf_02d.
  destruct (Nat.ltb_spec i 10); [lia|]. by apply pretty_nat_length_ge3.
Qed.

Lemma Sprintf_02d_inj i j : Fmt.Sprintf_02d i = Fmt.Sprintf_02d j -> i = j.
Proof.
  assert (Hmixed : forall a b, (a < 10)%nat -> (10 <= b)%nat ->
            Fmt.Sprintf_02d a <> Fmt.Sprintf_02d b).
  { intros a b Ha Hb Heq.
    destruct (Sprintf_02d_below_100 a) as (c & d & Hc & Hc0); [lia|].
    destruct (decide (b < 100)%nat) as [Hlt|Hge].
    - destruct (Sprintf_02d_below_100 b Hlt) as (c' & d' & Hc' & Hc0').
      rewrite Hc, Hc' in Heq. injection Heq as -> _.
      apply Hc0 in Ha. apply Hc0' in Ha. lia.
    - pose proof (Sprintf_02d_from_100 b ltac:(lia)) as Hlen.
      rewrite <- Heq, Hc in Hlen. simpl in Hlen. lia. }
  intros Heq.
  destruct (decide (i < 10)%nat) as [Hi|Hi], (decide (j < 10)%nat) as [Hj|Hj].
  - unfold Fmt.Sprintf_02d in Heq.
    destruct (Nat.ltb_spec i 10), (Nat.ltb_spec j 10); try lia.
    injection Heq as Heq. by apply (inj pretty).
  - exfalso. apply (Hmixed i j); [done|lia|done].
  - exfalso. apply (Hmixed j i); [done|lia|done].
  - unfold Fmt.Sprintf_02d in Heq.
    destruct (Nat.ltb_spec i 10), (Nat.ltb_spec j 10); try lia.
    by apply (inj pretty).
Qed.

Lemma candidate_inj nm i j : candidate nm i = candidate nm j -> i = j.
Proof.
  unfold candidate. intros Heq.
  apply Sprintf_02d_inj.
  apply (inj (String.app "#")), (inj (String.app nm)), Heq.
Qed.

(** ** [newSubTestName] *)

Section newSubTestName_facts.

Variable m : gmap string bool.
Variable nm : string.

Lemma newSubTestName_loop_None fuel i :
  newSubTestName_loop fuel m nm i = None ->
  forall j, (i <= j < i + fuel)%nat -> used m (candidate nm j) = true.
Proof.
  revert i. induction fuel as [|fuel IH]; intros i Hloop j Hj; [lia|].
  simpl in Hloop.
  destruct (used m (candidate nm i)) eqn:Hused; simpl in Hloop; [|done].
  destruct (decide (j = i)) as [->|Hne]; [done|].
  apply (IH (S i)); [done|lia].
Qed.

Lemma newSubTestName_loop_Some fuel i n :
  newSubTestName_loop fuel m nm i = Some n ->
  exists j, (i <= j < i + fuel)%nat /\ n = candidate nm j /\
    used m n = false /\
    forall k, (i <= k < j)%nat -> used m (candidate nm k) = true.
Proof.
  revert i. induction fuel as [|fuel IH]; intros i Hloop; [done|].
  simpl in Hloop.
  destruct (used m (candidate nm i)) eqn:Hused; simpl in Hloop.
  - destruct (IH _ Hloop) as (j & Hj & -> & Hfree & Hbelow).
    exists j. repeat split; [lia|lia|done|].
    intros k Hk. destruct (decide (k = i)) as [->|Hne]; [done|].
    apply Hbelow. lia.
  - injection Hloop as <-. exists i. repeat split; [lia|lia|done|].
    intros k Hk. lia.
Qed.

(** A used name is a key of the map. *)
Lemma used_dom n : used m n = true -> n ∈ dom m.
Proof.
  unfold used. intros H. apply elem_of_dom.
  destruct (m !! n); [eauto|done].
Qed.

(** The loop ends: the candidates are pairwise different, so a map with
    [size m] keys cannot hold [size m + 1] of them. *)
Lemma newSubTestName_loop_total :
  is_Some (newSubTestName_loop (S (size m)) m nm 1).
Proof.
  destruct (newSubTestName_loop (S (size m)) m nm 1) eqn:Hloop; [eauto|].
  exfalso.
  pose proof (newSubTestName_loop_None _ _ Hloop) as Hall.
  set (cands := candidate nm <$> seq 1 (S (size m))).
  assert (Hnodup : NoDup cands).
  { apply NoDup_fmap_2; [|apply NoDup_seq].
    intros i j. apply candidate_inj. }
  assert (Hsub : (list_to_set cands : gset string) ⊆ dom m).
  { intros n Hn. apply elem_of_list_to_set in Hn.
    apply list_elem_of_fmap in Hn as (j & -> & Hj).
    apply elem_of_seq in Hj. apply used_dom, Hall. lia. }
  apply subseteq_size in Hsub.
  rewrite size_list_to_set in Hsub by done.
  rewrite size_dom in Hsub.
  unfold cands in Hsub. rewrite length_fmap, length_seq in Hsub. lia.
Qed.

End newSubTestName_facts.

(** What [newSubTestName] returns: the normalised name when it is free,
    and otherwise the first free candidate, counting from one. *)
Lemma newSubTestName_spec t nm :
  let n0 := Strs.ReplaceAll nm " " "_" in
  let m := subtestNames t in
  (used m n0 = false /\ newSubTestName t nm = n0) \/
  (used m n0 = true /\
   exists i, (1 <= i)%nat /\ newSubTestName t nm = candidate n0 i /\
     used m (candidate n0 i) = false /\
     forall k, (1 <= k < i)%nat -> used m (candidate n0 k) = true).
Proof.
  intros n0 m. unfold newSubTestName. fold n0. fold m.
  destruct (used m n0) eqn:Hused; cbn [negb]; [right|left; done].
  split; [done|].
  destruct (newSubTestName_loop_total m n0) as [n Hn]. rewrite Hn.
  cbn [default].
  destruct (newSubTestName_loop_Some _ _ _ _ _ Hn) as (j & Hj & -> & Hfree & Hb).
  exists j. repeat split; [lia|done|done].
Qed.

Lemma newSubTestName_unused t nm :
  used (subtestNames t) (newSubTestName t nm) = false.
Proof.
  destruct (newSubTestName_spec t nm) as [[H ->]|[_ (i & _ & -> & H & _)]];
    done.
Qed.

(** ** Names without spaces *)


Lemma string_app_assoc (s1 s2 s3 : string) :
  (s1 +:+ s2) +:+ s3 = s1 +:+ (s2 +:+ s3).
Proof.
  induction s1 as [|c s1 IH]; [done|].
  change (String c ((s1 +:+ s2) +:+ s3) = String c (s1 +:+ (s2 +:+ s3))).
  by rewrite IH.
Qed.

Lemma contains_app s1 s2 c :
  Strs.contains (s1 +:+ s2) c = Strs.contains s1 c || Strs.contains s2 c.
Proof.
  induction s1 as [|d s1 IH]; simpl; [done|].
  rewrite IH. by rewrite orb_assoc.
Qed.

Lemma ReplaceAll_no_space s : no_space (Strs.ReplaceAll s " " "_").
Proof.
  unfold no_space. induction s as [|c s IH]; simpl; [done|].
  destruct (Ascii.eqb_spec c " ") as [->|Hne]; simpl; [done|].
  rewrite IH. apply Ascii.eqb_neq in Hne. by rewrite Hne.
Qed.

Lemma ReplaceAll_id s c new : Strs.contains s c = false -> Strs.ReplaceAll s c new = s.
Proof.
  induction s as [|d s IH]; simpl; [done|].
  intros H. apply orb_false_iff in H as [Hd Hs].
  rewrite Hd. by rewrite IH.
Qed.

Lemma Sprintf_02d_no_space i : no_space (Fmt.Sprintf_02d i).
Proof.
  (* digits only: go through the digits that [pretty] emits *)
  assert (Hgo : forall x s, no_space s -> no_space (pretty_N_go x s)).
  { intros x. induction (N.lt_wf_0 x) as [x _ IH]; intros s Hs.
    destruct (decide (0 < x)%N) as [Hx|Hx].
    - rewrite pretty_N_go_step by done. apply IH; [by apply N.div_lt|].
      unfold no_space in *. simpl. rewrite Hs.
      assert (N.modulo x 10 < 10)%N as Hlt by (apply N.mod_lt; lia).
      generalize dependent (N.modulo x 10). intros d Hd.
      do 10 (destruct d as [|d] using N.peano_ind; [done|]; try lia).
    - assert (x = 0%N) as -> by lia. by rewrite pretty_N_go_0. }
  assert (Hp : forall n : nat, no_space (pretty n)).
  { intros n. unfold pretty, pretty_nat, pretty, pretty_N.
    destruct (decide _); [done|]. by apply Hgo. }
  unfold Fmt.Sprintf_02d. destruct (i <? 10)%nat; [|apply Hp].
  unfold no_space. rewrite contains_app. simpl. apply Hp.
Qed.

(** ** What a computation leaves in place *)


Section Frame.

Context {S : Type} (rel : nat -> S -> S -> Prop) `{!Graded rel}.


Lemma frames_weaken {A} j k (m : M S A) :
  (j <= k)%nat -> frames rel j m -> frames rel k m.
Proof. intros Hjk Hm s. eapply graded_weaken; [exact Hjk|apply Hm]. Qed.

Lemma frames_ret {A} (a : A) : frames rel 0 (mret a).
Proof. intros s. apply graded_refl. Qed.

Lemma frames_bind {A B} j k (m : M S A) (f : A -> M S B) :
  frames rel j m -> (forall a, frames rel k (f a)) -> frames rel (j + k) (m ≫= f).
Proof.
  intros Hm Hf s. unfold mbind, M_bind.
  specialize (Hm s). destruct (m s) as [[a| |e] s1]; simpl in Hm.
  - eapply graded_trans; [exact Hm|apply Hf].
  - simpl. eapply graded_weaken; [|exact Hm]. lia.
  - simpl. eapply graded_weaken; [|exact Hm]. lia.
Qed.

Lemma frames_get : frames rel 0 get.
Proof. intros s. apply graded_refl. Qed.

Lemma frames_modify k (f : S -> S) :
  (forall s, rel k s (f s)) -> frames rel k (modify f).
Proof. intros Hf s. apply Hf. Qed.

Lemma frames_Goexit {A} : frames rel 0 (@runtime_Goexit S A).
Proof. intros s. apply graded_refl. Qed.

Lemma frames_panic {A} e : frames rel 0 (@panic S A e).
Proof. intros s. apply graded_refl. Qed.

Lemma frames_Go k (f : M S unit) : frames rel k f -> frames rel k (Go f).
Proof.
  intros Hf s. specialize (Hf s). unfold Go.
  by destruct (f s) as [[a| |e] s1].
Qed.

End Frame.

(** When the first computation returns, the second one runs from the
    state it left. *)
Lemma bind_Ret {S A B} (m : M S A) (f : A -> M S B) s a s1 :
  m s = (Ret a, s1) -> (m ≫= f) s = f a s1.
Proof. intros H. unfold mbind, M_bind. by rewrite H. Qed.

Lemma bind_Goexit {S A B} (m : M S A) (f : A -> M S B) s s1 :
  m s = (Goexit, s1) -> (m ≫= f) s = (Goexit, s1).
Proof. intros H. unfold mbind, M_bind. by rewrite H. Qed.

Lemma bind_Panic {S A B} (m : M S A) (f : A -> M S B) s e s1 :
  m s = (Panic e, s1) -> (m ≫= f) s = (Panic e, s1).
Proof. intros H. unfold mbind, M_bind. by rewrite H. Qed.

(** *** One double *)


Global Instance R_graded : Graded R.
Proof.
  split.
  - intros t. split; try done. exists 0%nat. split; [lia|done].
  - intros j k a b c [Hn1 Hc1 Hm1 Hs1 Ha1 Hp1 (j1 & Hj1 & Hf1)]
                     [Hn2 Hc2 Hm2 Hs2 Ha2 Hp2 (j2 & Hj2 & Hf2)].
    split; try congruence; try tauto.
    exists (j2 + j1)%nat. split; [lia|].
    rewrite Hf2, Hf1. symmetry. apply Nat.iter_add.
  - intros j k a b Hjk [Hn Hc Hm Hs Ha Hp (j1 & Hj1 & Hf)].
    split; try done. exists j1. split; [lia|done].
Qed.

Lemma R_once t : R 1 t (set_failed (Go_int.incr (failed t)) t).
Proof. split; try done. exists 1%nat. split; [lia|done]. Qed.

Ltac keeps_fields :=
  intros; split; try done; exists 0%nat; split; [lia|done].

Lemma frames_Fail : frames R 1 Fail.
Proof. apply frames_modify, R_once. Qed.

Lemma frames_goexit : frames R 0 goexit.
Proof.
  intros t. unfold goexit, mbind, M_bind, modify, get. simpl.
  destruct (abort t); simpl; keeps_fields.
Qed.

Lemma frames_Log args : frames R 0 (Log args).
Proof. apply frames_modify. keeps_fields. Qed.

Lemma frames_Logf format args : frames R 0 (Logf format args).
Proof. apply frames_modify. keeps_fields. Qed.

Lemma frames_FailNow : frames R 1 FailNow.
Proof. apply (frames_bind R 1 0); [apply frames_Fail|intros _; apply frames_goexit]. Qed.

Lemma frames_SkipNow : frames R 0 SkipNow.
Proof.
  apply (frames_bind R 0 0); [|intros _; apply frames_goexit].
  apply frames_modify. keeps_fields.
Qed.


Lemma frames_call_T m : frames R 1 (call_T m).
Proof.
  destruct m; simpl.
  - apply frames_Fail.
  - apply frames_FailNow.
  - apply (frames_bind R 0 1); [apply frames_Log|intros _; apply frames_Fail].
  - apply (frames_bind R 0 1); [apply frames_Logf|intros _; apply frames_Fail].
  - apply (frames_bind R 0 1); [apply frames_Log|intros _; apply frames_FailNow].
  - apply (frames_bind R 0 1); [apply frames_Logf|intros _; apply frames_FailNow].
  - apply (frames_weaken R 0); [lia|apply frames_Log].
  - apply (frames_weaken R 0); [lia|apply frames_Logf].
  - apply frames_modify. keeps_fields.
  - apply (frames_bind R 0 1); [apply frames_Log|intros _].
    apply (frames_weaken R 0); [lia|apply frames_SkipNow].
  - apply (frames_bind R 0 1); [apply frames_Logf|intros _].
    apply (frames_weaken R 0); [lia|apply frames_SkipNow].
  - apply (frames_weaken R 0); [lia|apply frames_SkipNow].
  - destruct caller; [apply frames_modify; keeps_fields|].
    apply (frames_weaken R 0); [lia|apply frames_ret; apply _].
  - apply frames_modify. keeps_fields.
  - apply frames_modify. intros t. destruct (negb _); keeps_fields.
  - apply (frames_weaken R 0); [lia|apply frames_ret; apply _].
Qed.

(** *** The store *)

Global Instance ext_graded : Graded ext.
Proof.
  split.
  - intros w p t Hp. exists t. split; [done|apply graded_refl].
  - intros j k a b c Hab Hbc p t Hp.
    destruct (Hab p t Hp) as (t1 & Hp1 & HR1).
    destruct (Hbc p t1 Hp1) as (t2 & Hp2 & HR2).
    exists t2. split; [done|]. eapply graded_trans; eauto.
  - intros j k a b Hjk Hab p t Hp.
    destruct (Hab p t Hp) as (t1 & Hp1 & HR1).
    exists t1. split; [done|]. eapply graded_weaken; eauto.
Qed.

(** A budget that is large enough, then the rule for [≫=]. *)
Ltac frames_seq j k :=
  apply (frames_weaken _ (j + k)); [lia|apply (frames_bind _ j k); [|intros ?]].

Ltac frames_skip := apply (frames_weaken _ 0); [lia|].

Lemma ext_same_heap k w w' : heap w' = heap w -> ext k w w'.
Proof.
  intros Hh p t Hp. exists t. rewrite Hh. split; [done|].
  apply (graded_weaken 0%nat); [lia|apply graded_refl].
Qed.

Lemma frames_get_T p : frames ext 0 (get_T p).
Proof.
  intros w. unfold get_T. destruct (heap w !! p); apply graded_refl.
Qed.

Lemma frames_var scope x : frames ext 0 (var scope x).
Proof.
  intros w. unfold var. destruct (scope !! x); apply graded_refl.
Qed.

Lemma frames_with_T {A} k p (m : M T A) :
  frames R k m -> frames ext k (with_T p m).
Proof.
  intros Hm w. unfold with_T.
  destruct (heap w !! p) as [t|] eqn:Hp; simpl.
  - specialize (Hm t). destruct (m t) as [r t']. simpl in *.
    intros q tq Hq. cbn. destruct (decide (q = p)) as [->|Hne].
    + exists t'. rewrite list_lookup_insert_eq by (by eapply lookup_lt_Some).
      split; [done|]. rewrite Hp in Hq. by injection Hq as <-.
    + exists tq. rewrite list_lookup_insert_ne by done.
      split; [done|]. apply (graded_weaken 0%nat); [lia|apply graded_refl].
  - apply (graded_weaken 0%nat); [lia|apply graded_refl].
Qed.

Lemma frames_alloc t : frames ext 0 (alloc t).
Proof.
  intros w p tp Hp. exists tp. simpl.
  rewrite lookup_app_l by (by eapply lookup_lt_Some).
  split; [done|apply graded_refl].
Qed.

Lemma frames_time_Now : frames ext 0 time_Now.
Proof. intros w. by apply ext_same_heap. Qed.

Lemma frames_call_ioutil_TempDir dir pattern :
  frames ext 0 (call_ioutil_TempDir dir pattern).
Proof. intros w. by apply ext_same_heap. Qed.

Lemma frames_Fatal args : frames R 1 (Fatal args).
Proof. apply (frames_call_T (mFatal args)). Qed.

Lemma frames_TestingT_Fatal r args : frames ext 1 (TestingT_Fatal r args).
Proof.
  destruct r as [q|id exits]; simpl.
  - apply frames_with_T, frames_Fatal.
  - frames_seq 0%nat 0%nat.
    + intros w. by apply ext_same_heap.
    + destruct exits; [apply frames_Goexit|apply frames_ret]; apply _.
Qed.

Lemma frames_internalError p err : frames ext 1 (internalError p err).
Proof.
  unfold internalError. frames_seq 0%nat 1%nat; [apply frames_get_T|].
  destruct (testingT a); [apply frames_TestingT_Fatal|].
  frames_skip. apply frames_panic, _.
Qed.

Lemma frames_TempDir p : frames ext 1 (TempDir p).
Proof.
  unfold TempDir. frames_seq 0%nat 1%nat; [apply frames_get_T|].
  frames_seq 0%nat 1%nat.
  { destruct (mkdirTempFunc a);
      [apply frames_ret, _|apply frames_call_ioutil_TempDir]. }
  destruct a0 as [dir err].
  frames_seq 1%nat 0%nat.
  { destruct err; [apply frames_internalError|].
    frames_skip. apply frames_ret, _. }
  frames_seq 0%nat 0%nat; [|apply frames_ret, _].
  apply frames_with_T, frames_modify. keeps_fields.
Qed.

Lemma frames_call p m : frames ext 1 (call p m).
Proof.
  destruct m; cbv beta iota delta [call];
    try (apply frames_with_T, frames_call_T).
  frames_seq 1%nat 0%nat; [apply frames_TempDir|apply frames_ret, _].
Qed.

Lemma frames_Run_begin p nm : frames ext 0 (Run_begin p nm).
Proof.
  unfold Run_begin. frames_seq 0%nat 0%nat; [apply frames_get_T|].
  frames_seq 0%nat 0%nat; [apply frames_time_Now|].
  frames_seq 0%nat 0%nat; [intros w; apply graded_refl|].
  frames_seq 0%nat 0%nat; [apply frames_alloc|].
  frames_seq 0%nat 0%nat; [|apply frames_ret, _].
  apply frames_with_T, frames_modify. keeps_fields.
Qed.

Lemma frames_Run_end p c : frames ext 1 (Run_end p c).
Proof.
  unfold Run_end. frames_seq 0%nat 1%nat; [apply frames_get_T|].
  frames_seq 1%nat 0%nat.
  { destruct (Failed a); [apply frames_with_T, frames_Fail|].
    frames_skip. apply frames_ret, _. }
  frames_seq 0%nat 0%nat; [apply frames_get_T|apply frames_ret, _].
Qed.

Lemma frames_Run k p nm (f : ptr -> W unit) :
  (forall c, frames ext k (f c)) -> frames ext (1 + k) (Run p nm f).
Proof.
  intros Hf. unfold Run.
  frames_seq 0%nat (k + 1)%nat; [apply frames_Run_begin|].
  frames_seq k 1%nat; [apply frames_Go, Hf|].
  apply frames_Run_end.
Qed.

(** Whatever a test program does, the doubles that were there before are
    there afterwards, with their names and settings, their flags not
    reset, and their failure counters incremented at most [calls pr]
    times. *)
Lemma frames_exec pr : forall scope, frames ext (calls pr) (exec pr scope).
Proof.
  induction pr as [|a IHa b IHb|x m|x nm body IHbody onT IHT onF IHF
                   |q x th IHth el IHel|x i body IHbody]; intros scope; simpl.
  - apply frames_ret, _.
  - apply (frames_bind _ _ _); [apply IHa|intros _; apply IHb].
  - frames_seq 0%nat 1%nat; [apply frames_var|apply frames_call].
  - frames_seq 0%nat (1 + calls body + (calls onT + calls onF))%nat;
      [apply frames_var|].
    apply (frames_bind _ _ _).
    + apply frames_Run. intros c. apply IHbody.
    + intros [|].
      * apply (frames_weaken _ (calls onT)); [lia|apply IHT].
      * apply (frames_weaken _ (calls onF)); [lia|apply IHF].
  - frames_seq 0%nat (calls th + calls el)%nat; [apply frames_var|].
    frames_seq 0%nat (calls th + calls el)%nat; [apply frames_get_T|].
    destruct (ask q a0).
    + apply (frames_weaken _ (calls th)); [lia|apply IHth].
    + apply (frames_weaken _ (calls el)); [lia|apply IHel].
  - frames_seq 0%nat (calls body); [apply frames_var|].
    frames_seq 0%nat (calls body); [apply frames_get_T|].
    destruct (Subtests a0 !! i); [apply IHbody|].
    frames_skip. apply frames_panic, _.
Qed.

(** ** Failure counting *)

Lemma issue_failed c t :
  failed (snd (issue c t)) = Go_int.incr (failed t).
Proof.
  destruct c; unfold issue, Error, Errorf, Fatal, Fatalf, FailNow, goexit,
    Fail, Log, Logf, mbind, M_bind, modify, get; simpl;
    try reflexivity; by destruct (abort t).
Qed.

Lemma issue_no_panic c t e : fst (issue c t) <> Panic e.
Proof.
  destruct c; unfold issue, Error, Errorf, Fatal, Fatalf, FailNow, goexit,
    Fail, Log, Logf, mbind, M_bind, modify, get; simpl;
    try discriminate; by destruct (abort t).
Qed.

Lemma Go_issue c t : Go (issue c) t = (Ret tt, snd (issue c t)).
Proof.
  unfold Go. pose proof (issue_no_panic c t) as Hnp.
  destruct (issue c t) as [[[]| |e] t']; simpl in *; try done.
  by destruct (Hnp e).
Qed.

Lemma isolated_spec cs : forall t,
  fst (isolated cs t) = Ret tt /\
  failed (snd (isolated cs t)) = Nat.iter (length cs) Go_int.incr (failed t).
Proof.
  induction cs as [|c cs IH]; intros t; [done|].
  cbn [isolated]. rewrite (bind_Ret _ _ _ _ _ (Go_issue c t)).
  destruct (IH (snd (issue c t))) as [Hret Hcount].
  split; [done|]. rewrite Hcount, issue_failed. cbn [length].
  by rewrite Nat.iter_succ_r.
Qed.

(** C4. Each of [Fail], [FailNow], [Error], [Errorf], [Fatal] and
    [Fatalf] adds exactly one to the failure counter; after a sequence of
    such calls, the terminating ones each in a goroutine of its own,
    [FailedCount()] has grown by the number of calls, on a fresh double it
    is that number, and [Failed()] holds exactly when at least one call
    was made.  The counter is a Go [int]: the sequence is taken to stay
    below its largest value. *)
Theorem failure_counting (t : T) (cs : list failcall) :
  Go_int.min_int <= failed t ->
  failed t + Z.of_nat (length cs) <= Go_int.max_int ->
  let t' := snd (isolated cs t) in
  (forall c t0, Go_int.min_int <= failed t0 < Go_int.max_int ->
     FailedCount (snd (issue c t0)) = FailedCount t0 + 1) /\
  fst (isolated cs t) = Ret tt /\
  FailedCount t' = FailedCount t + Z.of_nat (length cs) /\
  (FailedCount t = 0 ->
     FailedCount t' = Z.of_nat (length cs) /\
     (Failed t' = true <-> (0 < length cs)%nat)).
Proof.
  intros Hlo Hhi t'.
  destruct (isolated_spec cs t) as [Hret Hcount].
  rewrite iter_incr in Hcount by done.
  split; [|split; [done|split; [done|]]].
  - intros c t0 [H1 H2]. unfold FailedCount. rewrite issue_failed.
    by apply incr_below_max.
  - unfold FailedCount, Failed. intros H0. fold t' in Hcount.
    rewrite Hcount, H0. split; [lia|].
    split; intros H.
    + apply Z.ltb_lt in H. lia.
    + apply Z.ltb_lt. lia.
Qed.

Lemma failure_counting_witness :
  let cs := [cFail; cFatal [Fmt.VStr "boom"]; cErrorf "got %d" [Fmt.VInt 4]] in
  FailedCount (snd (isolated cs demo_T)) = 3 /\
  Failed (snd (isolated cs demo_T)) = true.
Proof.
  intros cs.
  assert (Hlo : Go_int.min_int <= failed demo_T) by (vm_compute; discriminate).
  assert (Hhi : failed demo_T + Z.of_nat (length cs) <= Go_int.max_int)
    by (vm_compute; discriminate).
  destruct (failure_counting demo_T cs Hlo Hhi) as (_ & _ & _ & Hfresh).
  destruct (Hfresh eq_refl) as [Hcount Hfailed].
  split; [exact Hcount|]. apply Hfailed. simpl. lia.
Defined.

(** ** Aborting the goroutine *)

Lemma FailNow_run t :
  FailNow t =
  (if abort t then Goexit else Ret tt,
   set_aborted true (set_failed (Go_int.incr (failed t)) t)).
Proof.
  unfold FailNow, Fail, goexit, mbind, M_bind, modify, get. simpl.
  by destruct (abort t).
Qed.

Lemma SkipNow_run t :
  SkipNow t =
  (if abort t then Goexit else Ret tt, set_aborted true (set_skipped true t)).
Proof.
  unfold SkipNow, goexit, mbind, M_bind, modify, get. simpl.
  by destruct (abort t).
Qed.

Lemma with_T_run {A} p (m : M T A) w t :
  heap w !! p = Some t ->
  with_T p m w = (fst (m t), set_heap (<[p := snd (m t)]> (heap w)) w).
Proof. intros Hp. unfold with_T. rewrite Hp. by destruct (m t). Qed.

(** C5. [FailNow()] with abort enabled: whatever code [k] follows the call
    in the same goroutine is not run (the goroutine ends with the state
    [FailNow] left), and [Aborted()] is true.  With abort disabled [k] is
    run from that state, and [Aborted()] is true as well.  [SkipNow()]
    sets [skipped] and ends or continues in exactly the same way. *)
Theorem abort_or_record_intent {A} (w : world) (p : ptr) (t : T) (k : W A) :
  heap w !! p = Some t ->
  let tF := set_aborted true (set_failed (Go_int.incr (failed t)) t) in
  let tS := set_aborted true (set_skipped true t) in
  let wF := set_heap (<[p := tF]> (heap w)) w in
  let wS := set_heap (<[p := tS]> (heap w)) w in
  (abort t = true ->
     (with_T p FailNow;; k) w = (Goexit, wF) /\
     (with_T p SkipNow;; k) w = (Goexit, wS)) /\
  (abort t = false ->
     (with_T p FailNow;; k) w = k wF /\
     (with_T p SkipNow;; k) w = k wS) /\
  heap wF !! p = Some tF /\ Aborted tF = true /\
  heap wS !! p = Some tS /\ Aborted tS = true /\ Skipped tS = true /\
  fst (with_T p SkipNow w) = fst (with_T p FailNow w).
Proof.
  intros Hp tF tS wF wS.
  pose proof (with_T_run p FailNow w t Hp) as HF.
  pose proof (with_T_run p SkipNow w t Hp) as HS.
  rewrite FailNow_run in HF. rewrite SkipNow_run in HS. simpl in HF, HS.
  assert (Hlt : (p < length (heap w))%nat) by (by eapply lookup_lt_Some).
  split; [|split; [|split; [|split; [|split; [|split; [|split]]]]]].
  - intros Hab. rewrite Hab in HF, HS.
    split; [by apply bind_Goexit|by apply bind_Goexit].
  - intros Hab. rewrite Hab in HF, HS.
    split; [by rewrite (bind_Ret _ _ _ _ _ HF)|by rewrite (bind_Ret _ _ _ _ _ HS)].
  - simpl. by rewrite list_lookup_insert_eq.
  - done.
  - simpl. by rewrite list_lookup_insert_eq.
  - done.
  - done.
  - by rewrite HF, HS.
Qed.

Lemma abort_or_record_intent_witness :
  (with_T 0%nat FailNow;; with_T 0%nat (Log [Fmt.VStr "after"])) demo_world =
  (Goexit,
   set_heap [set_aborted true (set_failed (Go_int.incr (failed demo_T)) demo_T)]
            demo_world).
Proof.
  assert (Hp : heap demo_world !! 0%nat = Some demo_T) by reflexivity.
  destruct (abort_or_record_intent demo_world 0%nat demo_T
              (with_T 0%nat (Log [Fmt.VStr "after"])) Hp) as [Hab _].
  destruct (Hab eq_refl) as [HF _]. exact HF.
Defined.

(** ** Logging *)

Lemma Logf_run format args t :
  Logf format args t =
  (Ret tt, set_output (output t ++ [Fmt.Sprintf (Logf_format format) args]) t).
Proof. reflexivity. Qed.

(** C6, as the code has it.  [Logf] appends exactly one entry and changes
    nothing else; the entry is the rendering of the format to which a
    newline has been added exactly when the format string (not the
    rendered text) is empty or does not end in a newline. *)
Theorem Logf_appends_rendered_format (t : T) (format : string)
    (args : list Fmt.value) :
  let t' := snd (Logf format args t) in
  fst (Logf format args t) = Ret tt /\
  Output t' = (Output t ++ [Fmt.Sprintf (Logf_format format) args])%list /\
  t' = set_output (Output t') t /\
  (Strs.byte_is format (String.length format - 1) Fmt.newline = true ->
     Logf_format format = format) /\
  (Strs.byte_is format (String.length format - 1) Fmt.newline = false ->
     Logf_format format = format +:+ Fmt.nl).
Proof.
  split; [done|split; [done|split; [done|split]]].
  - intros H. unfold Logf_format. rewrite H.
    destruct format; [done|]. simpl. done.
  - intros H. unfold Logf_format. rewrite H. by rewrite orb_true_r.
Qed.

Lemma Logf_appends_rendered_format_witness :
  Logf_format "got %d" = "got %d" +:+ Fmt.nl.
Proof.
  apply (Logf_appends_rendered_format T_zero "got %d" []). reflexivity.
Defined.

(** C6, as the specification words it, fails: the text rendered from
    ["%s"] and an operand that ends in a newline ends in a newline already,
    and the entry gets a second one. *)
Lemma Logf_newline_by_result_counterexample :
  let arg := Fmt.VStr ("a" +:+ Fmt.nl) in
  Fmt.Sprintf "%s" [arg] = "a" +:+ Fmt.nl /\
  Logf_entry_by_result "%s" [arg] = "a" +:+ Fmt.nl /\
  Output (snd (Logf "%s" [arg] T_zero)) = ["a" +:+ Fmt.nl +:+ Fmt.nl] /\
  Output (snd (Logf "%s" [arg] T_zero)) <>
    (Output T_zero ++ [Logf_entry_by_result "%s" [arg]])%list.
Proof. vm_compute. repeat split; discriminate. Qed.

(** The other way round: left-over operands are reported after the
    newline of the format, and the entry ends without one. *)
Example Logf_extra_operand :
  Output (snd (Logf ("x" +:+ Fmt.nl) [Fmt.VInt 1] T_zero)) =
  ["x" +:+ Fmt.nl +:+ "%!(EXTRA int=1)"].
Proof. vm_compute. reflexivity. Qed.

(** C7. [Log] appends exactly one entry and changes nothing else: the
    operands in their default form, one space between every two
    neighbours (so also between two that are not strings), and a newline
    at the end.  [Error("a", "b")] appends ["a b\n"] and counts one
    failure; [Errorf("got %d", 4)] appends ["got 4\n"]. *)
Theorem Log_appends_line (t : T) (args : list Fmt.value) :
  Log args t = (Ret tt, set_output (Output t ++ [Fmt.Sprintln args]) t) /\
  Fmt.Sprintln [] = Fmt.nl /\
  (forall a, Fmt.Sprintln [a] = Fmt.fmt_v a +:+ Fmt.nl) /\
  (forall a b rest,
     Fmt.Sprintln (a :: b :: rest) =
     Fmt.fmt_v a +:+ " " +:+ Fmt.Sprintln (b :: rest)) /\
  (forall a b, Fmt.is_string a = false -> Fmt.is_string b = false ->
     Fmt.Sprintln [a; b] = Fmt.fmt_v a +:+ " " +:+ Fmt.fmt_v b +:+ Fmt.nl) /\
  (let t' := snd (Error [Fmt.VStr "a"; Fmt.VStr "b"] t) in
   fst (Error [Fmt.VStr "a"; Fmt.VStr "b"] t) = Ret tt /\
   Output t' = (Output t ++ ["a b" +:+ Fmt.nl])%list /\
   FailedCount t' = Go_int.incr (FailedCount t) /\
   (0 <= FailedCount t < Go_int.max_int -> Failed t' = true)) /\
  (let t' := snd (Errorf "got %d" [Fmt.VInt 4] t) in
   fst (Errorf "got %d" [Fmt.VInt 4] t) = Ret tt /\
   Output t' = (Output t ++ ["got 4" +:+ Fmt.nl])%list /\
   FailedCount t' = Go_int.incr (FailedCount t)).
Proof.
  split; [done|split; [done|split; [done|split; [|split; [|split]]]]].
  - intros a b rest. unfold Fmt.Sprintln. cbn [map Fmt.join_space].
    by rewrite !string_app_assoc.
  - intros a b _ _. unfold Fmt.Sprintln. cbn [map Fmt.join_space].
    by rewrite !string_app_assoc.
  - split; [done|split; [done|split; [done|]]].
    intros [H0 Hmax]. unfold Failed, Error, Log, Fail, mbind, M_bind, modify.
    cbn. unfold FailedCount in *.
    rewrite incr_below_max; [|unfold Go_int.min_int, Go_int.bits; lia|done].
    apply Z.ltb_lt. lia.
  - split; [done|split; [|done]]. vm_compute. reflexivity.
Qed.

Lemma Log_appends_line_witness :
  Failed (snd (Error [Fmt.VStr "a"; Fmt.VStr "b"] demo_T)) = true /\
  Fmt.Sprintln [Fmt.VInt 1; Fmt.VBool true] = "1 true" +:+ Fmt.nl.
Proof.
  destruct (Log_appends_line demo_T []) as (_ & _ & _ & _ & Hsp & Herr & _).
  split.
  - destruct Herr as (_ & _ & _ & Hf). apply Hf. vm_compute. split; discriminate || reflexivity.
  - apply (Hsp (Fmt.VInt 1) (Fmt.VBool true)); reflexivity.
Defined.

(** ** Deadline *)

(** C10. [WithTimeout(d)] with a negative [d] switches the timeout off,
    just as [WithTimeout(0)] does: [Deadline()] returns the zero time and
    [false], also when the option comes last in the options of [NewT]. *)
Theorem WithTimeout_negative (d : Duration) (now : Time) (t : T)
    (tmp nm : string) (options : list Option) :
  d < 0 ->
  Deadline (apply now (WithTimeout d) t) = (Time_zero, false) /\
  Deadline (apply now (WithTimeout d) t) = Deadline (apply now (WithTimeout 0) t) /\
  Deadline (NewT now tmp nm (options ++ [WithTimeout d])) = (Time_zero, false).
Proof.
  intros Hd.
  assert (Hlt : (0 <? d) = false) by (apply Z.ltb_ge; lia).
  split; [|split].
  - unfold apply. by rewrite Hlt.
  - unfold apply. by rewrite Hlt.
  - unfold NewT. rewrite fold_left_app. cbn [fold_left apply]. by rewrite Hlt.
Qed.

Lemma WithTimeout_negative_witness :
  Deadline (NewT 1000 "/tmp" "t" [WithNoAbort; WithTimeout (-5)]) =
  (Time_zero, false).
Proof.
  apply (WithTimeout_negative (-5) 1000 T_zero "/tmp" "t" [WithNoAbort]).
  reflexivity.
Defined.

(** ** Errors of the double itself *)

Lemma get_T_run p w t : heap w !! p = Some t -> get_T p w = (Ret t, w).
Proof. intros Hp. unfold get_T. by rewrite Hp. Qed.

Lemma get_T_nil p w : heap w !! p = None -> get_T p w = (Panic nil_deref, w).
Proof. intros Hp. unfold get_T. by rewrite Hp. Qed.

(** [TempDir] up to the point where the error is looked at. *)
Lemma TempDir_run p w t :
  heap w !! p = Some t ->
  TempDir p w =
  (let '(dir, err) := fst (mkdir_of t w) in
   match err with
   | Some e =>
       internalError p
         (Fmt.Errorf_w "TempDir() failed to create directory: " e)
   | None => mret tt
   end;;
   with_T p (modify (record_tempdir dir));;
   mret dir) (snd (mkdir_of t w)).
Proof.
  intros Hp. unfold TempDir. rewrite (bind_Ret _ _ _ _ _ (get_T_run p w t Hp)).
  unfold mkdir_of. destruct (mkdirTempFunc t) as [f|]; simpl.
  - unfold mbind at 1, M_bind at 1. unfold mret at 1, M_ret at 1. done.
  - unfold mbind at 1, M_bind at 1. unfold call_ioutil_TempDir. done.
Qed.

Lemma Fatal_run args t :
  Fatal args t =
  (if abort t then Goexit else Ret tt,
   set_aborted true
     (set_failed (Go_int.incr (failed t))
        (set_output (output t ++ [Fmt.Sprintln args]) t))).
Proof.
  unfold Fatal, Log, FailNow, Fail, goexit, mbind, M_bind, modify, get. simpl.
  by destruct (abort t).
Qed.

(** C9. When the directory cannot be created: without a reporter
    [TempDir] panics and leaves every double as it was; with a reporter,
    [Fatal] is called on it once, with the error as its only operand, and
    the double itself records no failure.  If the reporter's [Fatal] comes
    back, [TempDir] goes on to record and return the directory it was
    given.  A double cannot be set as its own reporter (the reporter is
    fixed when the double is built), hence [q <> p]. *)
Theorem TempDir_creation_fails (w : world) (p : ptr) (t : T)
    (dir e : string) (w1 : world) :
  heap w !! p = Some t ->
  mkdir_of t w = ((dir, Some e), w1) ->
  let msg := TempDir_error e in
  heap w1 = heap w /\
  (testingT t = None -> TempDir p w = (Panic msg, w1)) /\
  (forall id exits, testingT t = Some (Extern id exits) ->
     let w2 := add_report id [Fmt.VErr msg] w1 in
     TempDir p w =
     if exits then (Goexit, w2)
     else (Ret dir, set_heap (<[p := record_tempdir dir t]> (heap w2)) w2)) /\
  (forall q tq, testingT t = Some (MockT q) -> q <> p ->
     heap w !! q = Some tq ->
     let tq' := snd (Fatal [Fmt.VErr msg] tq) in
     let w2 := set_heap (<[q := tq']> (heap w1)) w1 in
     TempDir p w =
       (if abort tq then (Goexit, w2)
        else (Ret dir, set_heap (<[p := record_tempdir dir t]> (heap w2)) w2)) /\
     FailedCount tq' = Go_int.incr (FailedCount tq) /\
     Output tq' = (Output tq ++ [msg +:+ Fmt.nl])%list /\
     Aborted tq' = true /\
     heap w2 !! p = Some t) /\
  (testingT t <> Some (MockT p) ->
   exists t', heap (snd (TempDir p w)) !! p = Some t' /\
     FailedCount t' = FailedCount t /\ Output t' = Output t /\
     Aborted t' = Aborted t /\ Skipped t' = Skipped t).
Proof.
  intros Hp Hmk msg.
  assert (Hheap : heap w1 = heap w).
  { unfold mkdir_of in Hmk. destruct (mkdirTempFunc t); by injection Hmk as _ <-. }
  assert (Hp1 : heap w1 !! p = Some t) by (by rewrite Hheap).
  assert (Hlt : (p < length (heap w))%nat) by (by eapply lookup_lt_Some).
  pose proof (TempDir_run p w t Hp) as Hrun. rewrite Hmk in Hrun.
  cbn [fst snd] in Hrun.
  (* the three reporters *)
  assert (Hnone : testingT t = None -> TempDir p w = (Panic msg, w1)).
  { intros Hr. rewrite Hrun. apply bind_Panic. unfold internalError.
    rewrite (bind_Ret _ _ _ _ _ (get_T_run p w1 t Hp1)). by rewrite Hr. }
  assert (Hext : forall id exits, testingT t = Some (Extern id exits) ->
     TempDir p w =
     if exits then (Goexit, add_report id [Fmt.VErr msg] w1)
     else (Ret dir, set_heap (<[p := record_tempdir dir t]>
                                (heap (add_report id [Fmt.VErr msg] w1)))
                             (add_report id [Fmt.VErr msg] w1))).
  { intros id exits Hr. rewrite Hrun. unfold internalError.
    unfold mbind at 1, M_bind at 1.
    rewrite (bind_Ret _ _ _ _ _ (get_T_run p w1 t Hp1)). rewrite Hr.
    destruct exits; [done|]. cbn [TestingT_Fatal].
    unfold mbind, M_bind, mret, M_ret, modify, with_T. cbn. by rewrite Hp1. }
  assert (Hmock : forall q tq, testingT t = Some (MockT q) -> q <> p ->
     heap w !! q = Some tq ->
     TempDir p w =
       (if abort tq
        then (Goexit, set_heap (<[q := snd (Fatal [Fmt.VErr msg] tq)]> (heap w1)) w1)
        else (Ret dir,
              set_heap (<[p := record_tempdir dir t]>
                          (<[q := snd (Fatal [Fmt.VErr msg] tq)]> (heap w1)))
                       (set_heap (<[q := snd (Fatal [Fmt.VErr msg] tq)]> (heap w1)) w1)))).
  { intros q tq Hr Hne Hq. rewrite Hrun. unfold internalError.
    unfold mbind at 1, M_bind at 1.
    rewrite (bind_Ret _ _ _ _ _ (get_T_run p w1 t Hp1)). rewrite Hr.
    cbn [TestingT_Fatal].
    assert (Hq1 : heap w1 !! q = Some tq) by (by rewrite Hheap).
    rewrite (with_T_run q _ w1 tq Hq1). rewrite !Fatal_run. cbn [fst snd].
    destruct (abort tq); [done|].
    unfold mbind, M_bind, mret, M_ret, with_T, modify. cbn.
    rewrite list_lookup_insert_ne by done. by rewrite Hp1. }
  split; [done|split; [done|split; [done|split]]].
  - intros q tq Hr Hne Hq tq' w2.
    split; [by apply Hmock|]. unfold tq'. rewrite Fatal_run. cbn.
    split; [done|split; [done|split; [done|]]].
    rewrite list_lookup_insert_ne by done. done.
  - intros Hself. destruct (testingT t) as [[q|id exits]|] eqn:Hr.
    + assert (Hne : q <> p) by congruence.
      destruct (heap w !! q) as [tq|] eqn:Hq.
      * rewrite (Hmock q tq eq_refl Hne Hq).
        destruct (abort tq); cbn.
        -- exists t. rewrite list_lookup_insert_ne by done. by rewrite Hp1.
        -- exists (record_tempdir dir t).
           rewrite list_lookup_insert_eq; [done|].
           rewrite length_insert, Hheap. done.
      * exists t. rewrite Hrun. unfold internalError.
        unfold mbind at 1, M_bind at 1.
        rewrite (bind_Ret _ _ _ _ _ (get_T_run p w1 t Hp1)). rewrite Hr.
        cbn [TestingT_Fatal]. unfold with_T. rewrite Hheap, Hq. cbn.
        by rewrite Hheap.
    + rewrite (Hext id exits eq_refl). destruct exits; cbn.
      * exists t. by rewrite Hp1.
      * exists (record_tempdir dir t).
        rewrite list_lookup_insert_eq; [done|]. by rewrite Hheap.
    + rewrite (Hnone eq_refl). exists t. cbn [snd]. by rewrite Hp1.
Qed.

Lemma TempDir_creation_fails_witness :
  let w := broken_world (Some (MockT 0%nat)) in
  exists w', TempDir 1%nat w = (Goexit, w') /\
    (FailedCount <$> heap w') = [1; 0].
Proof.
  intros w.
  assert (Hp : heap w !! 1%nat = Some (broken_T (Some (MockT 0%nat))))
    by reflexivity.
  assert (Hmk : mkdir_of (broken_T (Some (MockT 0%nat))) w =
                (("", Some "can't create dir"), w)) by reflexivity.
  destruct (TempDir_creation_fails w 1%nat _ _ _ _ Hp Hmk)
    as (_ & _ & _ & Hmock & _).
  destruct (Hmock 0%nat reporter_T eq_refl ltac:(lia) eq_refl) as [Hrun _].
  eexists. split; [exact Hrun|]. reflexivity.
Defined.

(** ** Sub-tests *)

Lemma Run_begin_run p nm w t :
  heap w !! p = Some t ->
  Run_begin p nm w = (Ret (length (heap w)), world_at_start p t nm w).
Proof.
  intros Hp. unfold Run_begin.
  rewrite (bind_Ret _ _ _ _ _ (get_T_run p w t Hp)).
  unfold mbind, M_bind, mret, M_ret, time_Now, alloc, with_T, modify. cbn.
  assert (Hlt : (p < length (heap w))%nat) by (by eapply lookup_lt_Some).
  rewrite lookup_app_l by done. rewrite Hp. done.
Qed.

(** In the world where the body starts, the child is the last object and
    the parent has its new entry. *)
Lemma world_at_start_child p t nm w :
  heap w !! p = Some t ->
  heap (world_at_start p t nm w) !! length (heap w) =
  Some (subtest_of t (clock (hst w) (ticks w)) (os_TempDir (hst w))
                   (newSubTestName t nm)).
Proof.
  intros Hp. assert (Hlt : (p < length (heap w))%nat) by (by eapply lookup_lt_Some).
  unfold world_at_start. cbn [heap].
  rewrite list_lookup_insert_ne by lia.
  rewrite lookup_app_r by lia. by rewrite Nat.sub_diag.
Qed.

Lemma world_at_start_parent p t nm w :
  heap w !! p = Some t ->
  heap (world_at_start p t nm w) !! p =
  Some (register_subtest (newSubTestName t nm) (length (heap w)) t).
Proof.
  intros Hp. assert (Hlt : (p < length (heap w))%nat) by (by eapply lookup_lt_Some).
  unfold world_at_start. cbn [heap].
  rewrite list_lookup_insert_eq; [done|]. rewrite length_app. lia.
Qed.

Lemma subtest_of_config t now tmp nm : config (subtest_of t now tmp nm) = config t.
Proof. reflexivity. Qed.

Lemma subtest_of_fresh t now tmp nm :
  failed (subtest_of t now tmp nm) = 0 /\
  skipped (subtest_of t now tmp nm) = false /\
  aborted (subtest_of t now tmp nm) = false.
Proof. done. Qed.

(** [Run] from the start of the body on. *)
Lemma Run_run p nm (f : ptr -> W unit) w t :
  heap w !! p = Some t ->
  Run p nm f w =
  (Go (f (length (heap w)));; Run_end p (length (heap w)))
    (world_at_start p t nm w).
Proof.
  intros Hp. unfold Run. by rewrite (bind_Ret _ _ _ _ _ (Run_begin_run p nm w t Hp)).
Qed.

Lemma Run_end_run p c w tc tp :
  p <> c -> heap w !! c = Some tc -> heap w !! p = Some tp ->
  Run_end p c w =
  (Ret (negb (Failed tc)),
   if Failed tc then set_heap (<[p := snd (Fail tp)]> (heap w)) w else w).
Proof.
  intros Hne Hc Hp. unfold Run_end.
  rewrite (bind_Ret _ _ _ _ _ (get_T_run c w tc Hc)).
  destruct (Failed tc) eqn:Hf.
  - rewrite (bind_Ret _ _ _ _ _ (with_T_run p Fail w tp Hp)).
    assert (Hc' : heap (set_heap (<[p := snd (Fail tp)]> (heap w)) w) !! c = Some tc).
    { cbn [heap set_heap]. by rewrite list_lookup_insert_ne. }
    rewrite (bind_Ret _ _ _ _ _ (get_T_run c _ tc Hc')).
    unfold mret, M_ret. by rewrite Hf.
  - unfold mbind at 1, M_bind at 1. unfold mret at 1, M_ret at 1.
    rewrite (bind_Ret _ _ _ _ _ (get_T_run c w tc Hc)).
    unfold mret, M_ret. by rewrite Hf.
Qed.

(** C1. [Run] with a body that does not panic: once the body has ended,
    in the state [w2] it left, [Run] calls [Fail()] on the parent exactly
    once if the child has failed (the parent's counter goes up by one,
    whatever the child's counter is) and changes nothing otherwise; it
    returns [true] exactly when the child has not failed. *)
Theorem Run_propagates_failure (scope : list ptr) (w : world) (p : ptr)
    (t : T) (nm : string) (body : prog) (o : res unit) (w2 : world) :
  heap w !! p = Some t ->
  let c := length (heap w) in
  exec body (c :: scope) (world_at_start p t nm w) = (o, w2) ->
  (forall e, o <> Panic e) ->
  exists tc tp,
    heap w2 !! c = Some tc /\ heap w2 !! p = Some tp /\
    let w3 := snd (Run p nm (fun c => exec body (c :: scope)) w) in
    Run p nm (fun c => exec body (c :: scope)) w = (Ret (negb (Failed tc)), w3) /\
    (Failed tc = true ->
       w3 = snd (with_T p Fail w2) /\
       heap w3 !! p = Some (snd (Fail tp)) /\
       heap w3 !! c = Some tc /\
       (Go_int.min_int <= FailedCount tp < Go_int.max_int ->
          FailedCount (snd (Fail tp)) = FailedCount tp + 1)) /\
    (Failed tc = false -> w3 = w2).
Proof.
  intros Hp c Hbody Hnp.
  assert (Hlt : (p < length (heap w))%nat) by (by eapply lookup_lt_Some).
  assert (Hne : p <> c) by (unfold c; lia).
  pose proof (frames_exec body (c :: scope) (world_at_start p t nm w)) as Hext.
  rewrite Hbody in Hext. cbn [snd] in Hext.
  destruct (Hext c _ (world_at_start_child p t nm w Hp)) as (tc & Hc2 & _).
  destruct (Hext p _ (world_at_start_parent p t nm w Hp)) as (tp & Hp2 & _).
  exists tc, tp. split; [done|split; [done|]].
  assert (HGo : Go (exec body (c :: scope)) (world_at_start p t nm w) = (Ret tt, w2)).
  { unfold Go. rewrite Hbody. destruct o as [[]| |e]; try done. by destruct (Hnp e). }
  assert (Hrun : Run p nm (fun c => exec body (c :: scope)) w =
    (Ret (negb (Failed tc)),
     if Failed tc then set_heap (<[p := snd (Fail tp)]> (heap w2)) w2 else w2)).
  { rewrite (Run_run p nm _ w t Hp). fold c.
    rewrite (bind_Ret _ _ _ _ _ HGo). by apply Run_end_run. }
  rewrite Hrun. cbn [snd].
  assert (Hlt2 : (p < length (heap w2))%nat) by (by eapply lookup_lt_Some).
  split; [done|split].
  - intros Hf. rewrite Hf.
    split; [by rewrite (with_T_run p Fail w2 tp Hp2)|].
    cbn [heap set_heap].
    split; [by rewrite list_lookup_insert_eq|].
    split; [by rewrite list_lookup_insert_ne|].
    intros [Hlo Hhi]. unfold FailedCount in *. cbn. by apply incr_below_max.
  - intros Hf. by rewrite Hf.
Qed.

Lemma Run_propagates_failure_witness :
  let body := PSeq (PCall 0 mFail) (PCall 0 (mFatal [Fmt.VStr "stop"])) in
  exists tc (b : bool) w3,
    Run 0%nat "sub" (fun c => exec body [c; 0%nat]) demo_world = (Ret b, w3) /\
    b = negb (Failed tc).
Proof.
  intros body.
  assert (Hp : heap demo_world !! 0%nat = Some demo_T) by reflexivity.
  pose (r := exec body [1%nat; 0%nat] (world_at_start 0%nat demo_T "sub" demo_world)).
  assert (Hbody : exec body [length (heap demo_world); 0%nat]
                    (world_at_start 0%nat demo_T "sub" demo_world) = (fst r, snd r))
    by apply surjective_pairing.
  assert (Hnp : forall e, fst r <> Panic e)
    by (intros e; vm_compute; discriminate).
  destruct (Run_propagates_failure [0%nat] demo_world 0%nat demo_T "sub" body
              (fst r) (snd r) Hp Hbody Hnp) as (tc & tp & _ & _ & Hrun & _).
  exists tc, (negb (Failed tc)). eexists. split; [exact Hrun|reflexivity].
Defined.

(** ** Monotone state *)

(** C8. Whatever a test program does (any sequence of calls, with
    sub-tests nested to any depth), for every double that was there
    before: the flags [skipped], [aborted] and [parallel] are not reset,
    and the failure counter does not go down.  The counter is a Go [int]:
    the program is taken to make fewer calls than are needed to reach its
    largest value. *)
Theorem state_is_monotone (pr : prog) (scope : list ptr) (w : world)
    (p : ptr) (t : T) :
  heap w !! p = Some t ->
  exists t', heap (snd (exec pr scope w)) !! p = Some t' /\
    (Skipped t = true -> Skipped t' = true) /\
    (Aborted t = true -> Aborted t' = true) /\
    (Paralleled t = true -> Paralleled t' = true) /\
    (Go_int.min_int <= FailedCount t ->
     FailedCount t + Z.of_nat (calls pr) <= Go_int.max_int ->
     FailedCount t <= FailedCount t').
Proof.
  intros Hp.
  destruct (frames_exec pr scope w p t Hp)
    as (t' & Hp' & [_ _ _ Hs Ha Hpar (j & Hj & Hf)]).
  exists t'. split; [done|]. split; [done|split; [done|split; [done|]]].
  intros Hlo Hhi. unfold FailedCount in *. rewrite Hf.
  rewrite iter_incr by lia. lia.
Qed.

Lemma state_is_monotone_witness :
  let pr := PSeq (PCall 0 mParallel)
              (PRun 0 "sub" (PCall 0 (mSkip [Fmt.VStr "later"])) PDone
                    (PCall 0 mFail)) in
  exists t', heap (snd (exec pr [0%nat] demo_world)) !! 0%nat = Some t' /\
    0 <= FailedCount t'.
Proof.
  intros pr.
  assert (Hp : heap demo_world !! 0%nat = Some demo_T) by reflexivity.
  destruct (state_is_monotone pr [0%nat] demo_world 0%nat demo_T Hp)
    as (t' & Hp' & _ & _ & _ & Hf).
  exists t'. split; [exact Hp'|].
  apply Hf; vm_compute; discriminate.
Defined.

(** ** Inherited settings *)

(** C3. The child that [Run] builds has the parent's abort flag,
    deadline, timeout flag, base directory and reporter, as they are when
    [Run] is called; and they stay as they are whatever the body of the
    sub-test and the rest of the test program do, to the child (reached
    through [Subtests()] once [Run] has returned), to the parent or to any
    other double. *)
Theorem settings_are_inherited (scope : list ptr) (w : world) (x : nat)
    (p : ptr) (t : T) (nm : string) (body onTrue onFalse rest : prog) :
  scope !! x = Some p ->
  heap w !! p = Some t ->
  let c := length (heap w) in
  (exists tc, heap (world_at_start p t nm w) !! c = Some tc /\
     config tc = config t) /\
  (exists tc,
     heap (snd (exec (PRun x nm body onTrue onFalse) scope w)) !! c = Some tc /\
     config tc = config t) /\
  (exists tc,
     heap (snd (exec (PSeq (PRun x nm body onTrue onFalse) rest) scope w)) !! c
       = Some tc /\
     config tc = config t).
Proof.
  intros Hx Hp c.
  pose proof (world_at_start_child p t nm w Hp) as Hc. fold c in Hc.
  assert (Hafter : forall (k : nat) (m : bool -> W unit),
    (forall b, frames ext k (m b)) ->
    exists tc,
      heap (snd ((p ← var scope x;
                  passed ← Run p nm (fun c => exec body (c :: scope));
                  m passed) w)) !! c = Some tc /\ config tc = config t).
  { intros k m Hm.
    assert (Hvar : var scope x w = (Ret p, w)) by (unfold var; by rewrite Hx).
    rewrite (bind_Ret _ _ _ _ _ Hvar).
    unfold mbind at 1, M_bind at 1. rewrite (Run_run p nm _ w t Hp). fold c.
    set (tail := (Go (exec body (c :: scope));; Run_end p c) ≫= m).
    assert (Htail : frames ext (calls body + 1 + k) tail).
    { apply (frames_bind _ _ _); [|done].
      apply (frames_bind _ _ _);
        [apply frames_Go, frames_exec|intros _; apply frames_Run_end]. }
    destruct (Htail (world_at_start p t nm w) c _ Hc) as (tc & Hc' & HR).
    exists tc. split.
    - unfold tail, mbind, M_bind in Hc'. exact Hc'.
    - by rewrite (R_config _ _ _ HR). }
  split; [|split].
  - eexists. split; [exact Hc|apply subtest_of_config].
  - cbn [exec].
    apply (Hafter (calls onTrue + calls onFalse)%nat
             (fun b : bool => if b then exec onTrue scope else exec onFalse scope)).
    intros [|].
    + apply (frames_weaken _ (calls onTrue)); [lia|apply frames_exec].
    + apply (frames_weaken _ (calls onFalse)); [lia|apply frames_exec].
  - cbn [exec].
    destruct (Hafter (calls onTrue + calls onFalse + calls rest)%nat
      (fun b : bool => (if b then exec onTrue scope else exec onFalse scope);;
                       exec rest scope)) as (tc & Hc' & Hcfg).
    { intros b. apply (frames_bind _ _ _); [|intros _; apply frames_exec].
      destruct b.
      - apply (frames_weaken _ (calls onTrue)); [lia|apply frames_exec].
      - apply (frames_weaken _ (calls onFalse)); [lia|apply frames_exec]. }
    exists tc. split; [|done].
    rewrite <- Hc'. f_equal. f_equal.
    unfold mbind, M_bind.
    destruct (var scope x w) as [[v| |e] w0]; [|done|done].
    destruct (Run v nm _ w0) as [[b| |e] w1]; done.
Qed.

Lemma settings_are_inherited_witness :
  let body := PSeq (PCall 0 mParallel) (PCall 1 mFailNow) in
  let rest := PSub 0 0 (PCall 0 (mError [Fmt.VStr "late"])) in
  exists tc,
    heap (snd (exec (PSeq (PRun 0 "sub" body PDone PDone) rest) [0%nat]
                    demo_world)) !! 1%nat = Some tc /\
    config tc = config demo_T.
Proof.
  intros body rest.
  assert (Hp : heap demo_world !! 0%nat = Some demo_T) by reflexivity.
  destruct (settings_are_inherited [0%nat] demo_world 0 0%nat demo_T "sub"
              body PDone PDone rest eq_refl Hp) as (_ & _ & Hrest).
  exact Hrest.
Defined.

(** ** Names of sub-tests *)

Lemma ReplaceAll_app s1 s2 c new :
  Strs.ReplaceAll (s1 +:+ s2) c new =
  Strs.ReplaceAll s1 c new +:+ Strs.ReplaceAll s2 c new.
Proof.
  induction s1 as [|d s1 IH]; [done|].
  change (String d s1 +:+ s2) with (String d (s1 +:+ s2)).
  cbn [Strs.ReplaceAll]. rewrite IH.
  destruct (Ascii.eqb d c); [by rewrite string_app_assoc|done].
Qed.

Lemma candidate_no_space nm i : no_space nm -> no_space (candidate nm i).
Proof.
  unfold no_space, candidate. intros H. rewrite !contains_app, H.
  by rewrite Sprintf_02d_no_space.
Qed.

Lemma newSubTestName_no_space t nm : no_space (newSubTestName t nm).
Proof.
  destruct (newSubTestName_spec t nm) as [[_ ->]|[_ (i & _ & -> & _)]].
  - apply ReplaceAll_no_space.
  - apply candidate_no_space, ReplaceAll_no_space.
Qed.

Lemma apply_name now opt t : name (apply now opt t) = name t.
Proof. destruct opt; cbn [apply]; repeat case_match; done. Qed.

Lemma NewT_name now tmp nm options :
  name (NewT now tmp nm options) = Strs.ReplaceAll nm " " "_".
Proof.
  unfold NewT.
  assert (Hfold : forall t0,
    name (fold_left (fun t opt => apply now opt t) options t0) = name t0).
  { induction options as [|opt options IH]; intros t0; [done|].
    cbn [fold_left]. by rewrite IH, apply_name. }
  by rewrite Hfold.
Qed.

(** Every double built by [NewT] has a name without spaces. *)
Lemma NewT_no_space now tmp nm options :
  no_space (name (NewT now tmp nm options)).
Proof. rewrite NewT_name. apply ReplaceAll_no_space. Qed.

Lemma subtest_of_name t now tmp d :
  no_space d ->
  name (subtest_of t now tmp d) =
  if String.eqb (name t) "" then d
  else Strs.ReplaceAll (name t) " " "_" +:+ "/" +:+ d.
Proof.
  intros Hd. unfold subtest_of. cbn [name set_timeout set_deadline set_testingT
    set_baseTempdir set_abort]. rewrite NewT_name.
  destruct (String.eqb (name t) ""); cbn [negb].
  - by apply ReplaceAll_id.
  - rewrite !ReplaceAll_app. by rewrite (ReplaceAll_id d).
Qed.

(** Every double built by [Run] has a name without spaces. *)
Lemma subtest_of_no_space t now tmp nm :
  no_space (name (subtest_of t now tmp nm)).
Proof.
  unfold subtest_of. cbn [name set_timeout set_deadline set_testingT
    set_baseTempdir set_abort]. apply NewT_no_space.
Qed.

(** C2, as the code has it.  [Run] replaces the spaces of the requested
    name by underscores; a name not yet used under this parent is taken
    as it is, and otherwise ["#"] and a counter are appended, the counter
    starting at one and going up until the name is free.  The counter is
    written in decimal and padded with a zero to at least two digits: two
    digits below one hundred, more from one hundred on.  The child is
    named after the parent, a slash and that name, or by that name alone
    when the parent's name is empty; the name is marked as used.  A
    parent named ["Parent"] gets the children ["Parent/my_test"] and
    ["Parent/my_test#01"] from two calls of [Run("my test", ...)]. *)
Theorem Run_names_child (scope : list ptr) (w : world) (p : ptr) (t : T)
    (nm : string) (body : prog) :
  heap w !! p = Some t ->
  let c := length (heap w) in
  let n0 := Strs.ReplaceAll nm " " "_" in
  let d := newSubTestName t nm in
  let m := subtestNames t in
  let w' := snd (Run p nm (fun c => exec body (c :: scope)) w) in
  ((used m n0 = false /\ d = n0) \/
   (used m n0 = true /\
    exists i, (1 <= i)%nat /\
      d = n0 +:+ "#" +:+ Fmt.Sprintf_02d i /\
      used m d = false /\
      (forall k, (1 <= k < i)%nat ->
         used m (n0 +:+ "#" +:+ Fmt.Sprintf_02d k) = true) /\
      ((i < 100)%nat -> String.length (Fmt.Sprintf_02d i) = 2%nat) /\
      ((100 <= i)%nat -> (3 <= String.length (Fmt.Sprintf_02d i))%nat))) /\
  (exists tc,
     heap w' !! c = Some tc /\
     Name tc = (if String.eqb (name t) "" then d
                else Strs.ReplaceAll (name t) " " "_" +:+ "/" +:+ d) /\
     (no_space (name t) ->
        Name tc = if String.eqb (name t) "" then d else name t +:+ "/" +:+ d)) /\
  used (subtestNames (register_subtest d c t)) d = true /\
  (Name <$> heap (snd (exec
     (PSeq (PRun 0 "my test" PDone PDone PDone)
           (PRun 0 "my test" PDone PDone PDone)) [0%nat] demo_world))) =
  ["Parent"; "Parent/my_test"; "Parent/my_test#01"].
Proof.
  intros Hp c n0 d m w'.
  split; [|split; [|split]].
  - destruct (newSubTestName_spec t nm) as [Hfree|[Hused (i & Hi & Hd & Hf & Hb)]];
      [by left|right].
    split; [done|]. exists i. split; [done|]. split; [done|].
    split; [by rewrite <- Hd in Hf|]. split; [done|]. split.
    + intros Hlt. destruct (Sprintf_02d_below_100 i Hlt) as (c1 & c2 & -> & _).
      done.
    + apply Sprintf_02d_from_100.
  - pose proof (world_at_start_child p t nm w Hp) as Hc. fold c in Hc.
    assert (Htail : frames ext (calls body + 1)
              (Go (exec body (c :: scope));; Run_end p c)).
    { apply (frames_bind _ _ _);
        [apply frames_Go, frames_exec|intros _; apply frames_Run_end]. }
    destruct (Htail (world_at_start p t nm w) c _ Hc) as (tc & Hc' & HR).
    exists tc. unfold w'. rewrite (Run_run p nm _ w t Hp). fold c.
    split; [exact Hc'|].
    unfold Name. rewrite (R_name _ _ _ HR).
    rewrite subtest_of_name by apply newSubTestName_no_space.
    split; [done|]. intros Hns. by rewrite (ReplaceAll_id (name t)).
  - unfold used, register_subtest. cbn [subtestNames set_subtestNames].
    by rewrite lookup_insert_eq.
  - vm_compute. reflexivity.
Qed.

Lemma Run_names_child_witness :
  exists tc,
    heap (snd (Run 0%nat "my test" (fun c => exec PDone [c; 0%nat]) demo_world))
      !! 1%nat = Some tc /\
    Name tc = "Parent/my_test".
Proof.
  assert (Hp : heap demo_world !! 0%nat = Some demo_T) by reflexivity.
  destruct (Run_names_child [0%nat] demo_world 0%nat demo_T "my test" PDone Hp)
    as (_ & (tc & Hc & _ & Hname) & _).
  exists tc. split; [exact Hc|]. rewrite Hname; reflexivity.
Defined.

(** C2, as the specification words it, fails: the suffix is not always
    two digits long.  After [Run("a", ...)] has been called a hundred and
    one times on one parent, the last child carries the counter [100]. *)
Lemma Run_two_digit_suffix_counterexample :
  let w := snd (exec (same_name_runs 101) [0%nat] demo_world) in
  exists tc,
    heap w !! 101%nat = Some tc /\
    Name tc = "Parent/a#100" /\
    forall c1 c2 : ascii, Name tc <> "Parent/a#" +:+ String c1 (String c2 "").
Proof.
  eexists. split; [vm_compute; reflexivity|].
  split; [vm_compute; reflexivity|].
  intros c1 c2. vm_compute. discriminate.
Qed.

(** * Further properties of the double *)

(** ** Construction *)

Lemma fold_apply_abort now options : forall t0,
  abort (fold_left (fun t opt => apply now opt t) options t0) =
  abort t0 && negb (existsb is_WithNoAbort options).
Proof.
  induction options as [|opt options IH]; intros t0; cbn [fold_left existsb].
  - by rewrite andb_true_r.
  - rewrite IH. destruct opt; cbn [apply is_WithNoAbort]; repeat case_match;
      cbn; try done; by rewrite ?andb_false_r.
Qed.

(** X1. A double built by [NewT] aborts on [FailNow]/[SkipNow] unless
    [WithNoAbort] is among its options, wherever it stands: no option
    switches aborting back on. *)
Theorem NewT_abort_flag (now : Time) (tmp nm : string) (options : list Option) :
  abort (NewT now tmp nm options) = negb (existsb is_WithNoAbort options).
Proof. unfold NewT. by rewrite fold_apply_abort. Qed.




Lemma fold_apply_baseTempdir now options : forall t0 dir,
  baseTempdir (fold_left (fun t opt => apply now opt t)
                 (options ++ [WithBaseTempdir dir]) t0) =
  if String.eqb dir ""
  then baseTempdir (fold_left (fun t opt => apply now opt t) options t0)
  else dir.
Proof.
  intros t0 dir. rewrite fold_left_app. cbn [fold_left apply].
  by destruct (String.eqb dir "").
Qed.

(** X3. [WithBaseTempdir("")] changes nothing; any other directory given
    last is the base directory; and without such an option the base
    directory is [os.TempDir()]. *)
Theorem NewT_baseTempdir (now : Time) (tmp nm : string)
    (options : list Option) (dir : string) :
  baseTempdir (NewT now tmp nm (options ++ [WithBaseTempdir dir])) =
    (if String.eqb dir "" then baseTempdir (NewT now tmp nm options) else dir) /\
  ((forall d, WithBaseTempdir d ∉ options) ->
   baseTempdir (NewT now tmp nm options) = tmp).
Proof.
  split; [apply fold_apply_baseTempdir|].
  unfold NewT. set (t0 := mkT _ _ _ _ _ _ _ _ _ _ _ _ _ _ _ _ _ _).
  assert (H0 : baseTempdir t0 = tmp) by done.
  clearbody t0. revert t0 H0.
  induction options as [|opt options IH]; intros t0 H0 Hno; [done|].
  cbn [fold_left]. apply IH.
  - destruct opt; cbn [apply]; repeat case_match; try done.
    exfalso. apply (Hno dir0). apply list_elem_of_here.
  - intros d0 Hd. apply (Hno d0). by apply list_elem_of_further.
Qed.

Lemma NewT_baseTempdir_witness :
  baseTempdir (NewT 0 "/tmp" "t" [WithNoAbort; WithTimeout 5]) = "/tmp".
Proof.
  apply (NewT_baseTempdir 0 "/tmp" "t" [WithNoAbort; WithTimeout 5] "").
  intros d Hd. apply list_elem_of_In in Hd. simpl in Hd.
  destruct Hd as [Hd|[Hd|[]]]; discriminate.
Defined.

Lemma ReplaceAll_length s :
  String.length (Strs.ReplaceAll s " " "_") = String.length s.
Proof.
  induction s as [|c s IH]; [done|]. cbn [Strs.ReplaceAll].
  destruct (Ascii.eqb c " ").
  - change ("_" +:+ Strs.ReplaceAll s " " "_")
      with (String "_" (Strs.ReplaceAll s " " "_")). cbn. by rewrite IH.
  - cbn. by rewrite IH.
Qed.

(** X4. The name of a double built by [NewT] is the requested name with
    every space replaced by an underscore: it is as long as the requested
    name, contains no space, is the requested name itself when that has
    no space, and building a double from it again gives the same name. *)
Theorem NewT_name_normalised (now : Time) (tmp nm : string)
    (options : list Option) :
  let n := Name (NewT now tmp nm options) in
  no_space n /\
  String.length n = String.length nm /\
  (no_space nm -> n = nm) /\
  Name (NewT now tmp n options) = n.
Proof.
  intros n. unfold n, Name. rewrite !NewT_name.
  split; [apply ReplaceAll_no_space|]. split; [apply ReplaceAll_length|].
  split; [apply ReplaceAll_id|].
  apply ReplaceAll_id, ReplaceAll_no_space.
Qed.

Lemma NewT_name_normalised_witness :
  Name (NewT 0 "/tmp" "TestA" []) = "TestA".
Proof.
  destruct (NewT_name_normalised 0 "/tmp" "TestA" []) as (_ & _ & Hid & _).
  apply Hid. reflexivity.
Defined.

(** ** What each call does to the double *)

Ltac run_call_T :=
  unfold call_T, Error, Errorf, Fatal, Fatalf, Skip, Skipf, FailNow, SkipNow,
    goexit, Fail, Log, Logf, Parallel, Helper, Cleanup, Setenv,
    mbind, M_bind, mret, M_ret, modify, get; cbn.




(** ** [Setenv] and [Getenv] *)



(** ** [Helper] and [Cleanup] *)

(** X9. [Helper()] records its caller once per call, repeated callers
    included, in call order; when the caller cannot be resolved nothing
    is recorded.  [Cleanup] records the function and does not run it:
    nothing else of the double changes. *)
Theorem Helper_and_Cleanup_record (caller : option string) (f : string) (t : T) :
  HelperNames (snd (Helper caller t)) =
    (HelperNames t ++ match caller with Some fn => [fn] | None => [] end)%list /\
  snd (Helper caller t) = set_helpers (HelperNames (snd (Helper caller t))) t /\
  CleanupNames (snd (Cleanup f t)) = (CleanupNames t ++ [f])%list /\
  snd (Cleanup f t) = set_cleanups (CleanupNames (snd (Cleanup f t))) t.
Proof.
  destruct caller; cbn; rewrite ?app_nil_r; repeat split; by destruct t.
Qed.

(** ** [TempDir], when the directory is created *)

(** X10. When the directory is created, [TempDir] returns it, appends it
    to [TempDirs()] and changes nothing else of the double; the directory
    is asked for under the double's base directory with the pattern
    ["go-mocktesting*"], from [ioutil.TempDir] unless [mkdirTempFunc] is
    set.  On a [nil] receiver the call panics. *)
Theorem TempDir_records_directory (w : world) (p : ptr) (t : T) (dir : string)
    (w1 : world) :
  heap w !! p = Some t ->
  mkdir_of t w = ((dir, None), w1) ->
  TempDir p w = (Ret dir, set_heap (<[p := record_tempdir dir t]> (heap w1)) w1) /\
  heap w1 = heap w /\
  TempDirs (record_tempdir dir t) = (TempDirs t ++ [dir])%list /\
  record_tempdir dir t = set_tempdirs (TempDirs t ++ [dir]) t /\
  (mkdirTempFunc t = None ->
     dir = fst (ioutil_TempDir (hst w) (mkdirs w) (baseTempdir t) "go-mocktesting*") /\
     mkdirs w1 = S (mkdirs w)) /\
  (forall f, mkdirTempFunc t = Some f ->
     dir = fst (f (baseTempdir t) "go-mocktesting*") /\ w1 = w).
Proof.
  intros Hp Hmk.
  assert (Hheap : heap w1 = heap w).
  { unfold mkdir_of in Hmk. destruct (mkdirTempFunc t); by injection Hmk as _ <-. }
  assert (Hp1 : heap w1 !! p = Some t) by (by rewrite Hheap).
  split; [|split; [done|split; [done|split; [done|split]]]].
  - rewrite (TempDir_run p w t Hp), Hmk. cbn [fst snd].
    unfold mbind, M_bind, mret, M_ret, with_T, modify. by rewrite Hp1.
  - intros Hnone. unfold mkdir_of in Hmk. rewrite Hnone in Hmk.
    injection Hmk as Hres <-. by rewrite Hres.
  - intros f Hf. unfold mkdir_of in Hmk. rewrite Hf in Hmk.
    injection Hmk as Hres <-. by rewrite Hres.
Qed.

Lemma TempDir_records_directory_witness :
  exists w', TempDir 0%nat demo_world = (Ret "/tmp/go-mocktesting0", w').
Proof.
  assert (Hp : heap demo_world !! 0%nat = Some demo_T) by reflexivity.
  assert (Hmk : mkdir_of demo_T demo_world =
    (("/tmp/go-mocktesting0", None),
     mkWorld (heap demo_world) (hst demo_world) (ticks demo_world)
             (S (mkdirs demo_world)) (reports demo_world)))
    by (vm_compute; reflexivity).
  destruct (TempDir_records_directory _ _ _ _ _ Hp Hmk) as [Hrun _].
  eexists. exact Hrun.
Defined.

(** X11. Calls on [nil] panic: every call, [TempDir] and [Run] included,
    made on a pointer that holds no double panics with the nil-pointer
    error and leaves the store as it is.  ([Helper] is taken with a
    caller that resolves: it reads its caller before it touches the
    receiver.) *)
Theorem calls_on_nil_panic (w : world) (p : ptr) (m : method) (nm : string)
    (f : ptr -> W unit) :
  heap w !! p = None ->
  m <> mHelper None ->
  call p m w = (Panic nil_deref, w) /\
  Run p nm f w = (Panic nil_deref, w).
Proof.
  intros Hp _. split.
  - destruct m; cbv beta iota delta [call]; unfold with_T, TempDir, get_T,
      mbind, M_bind; by rewrite Hp.
  - unfold Run, Run_begin, get_T, mbind, M_bind. by rewrite Hp.
Qed.

Lemma calls_on_nil_panic_witness :
  call 5%nat mFail demo_world = (Panic nil_deref, demo_world).
Proof.
  apply (calls_on_nil_panic demo_world 5%nat mFail "" (fun _ => mret tt));
    [reflexivity|discriminate].
Defined.

(** ** [Run] and the goroutine of its caller *)

Lemma no_Goexit_bind {S A B} (m : M S A) (f : A -> M S B) :
  no_Goexit m -> (forall a, no_Goexit (f a)) -> no_Goexit (m ≫= f).
Proof.
  intros Hm Hf s. unfold mbind, M_bind. specialize (Hm s).
  destruct (m s) as [[a| |e] s1]; cbn in *; [apply Hf|done|done].
Qed.

Lemma no_Goexit_Go {S} (f : M S unit) : no_Goexit (Go f).
Proof. intros s. unfold Go. by destruct (f s) as [[a| |e] s1]. Qed.

Lemma no_Goexit_get_T p : no_Goexit (get_T p).
Proof. intros w. unfold get_T. by destruct (heap w !! p). Qed.

Lemma no_Goexit_with_T_modify p (g : T -> T) : no_Goexit (with_T p (modify g)).
Proof. intros w. unfold with_T, modify. by destruct (heap w !! p). Qed.

(** X12. [Run] never ends the goroutine of its caller, whatever the body
    does: a [FailNow], [Fatal] or [SkipNow] inside the body, on the
    sub-test or on any other double, ends the goroutine of the body only.
    The same holds for [Go]. *)
Theorem Run_keeps_caller_alive (p : ptr) (nm : string) (f : ptr -> W unit)
    (w : world) :
  fst (Run p nm f w) <> Goexit /\ fst (Go (f p) w) <> Goexit.
Proof.
  split; [|apply no_Goexit_Go].
  revert w. change (no_Goexit (Run p nm f)). unfold Run.
  apply no_Goexit_bind.
  - unfold Run_begin. apply no_Goexit_bind; [apply no_Goexit_get_T|intros t].
    apply no_Goexit_bind; [done|intros now].
    apply no_Goexit_bind; [done|intros tmp].
    apply no_Goexit_bind; [done|intros c].
    apply no_Goexit_bind; [apply no_Goexit_with_T_modify|done].
  - intros c. apply no_Goexit_bind; [apply no_Goexit_Go|intros _].
    unfold Run_end. apply no_Goexit_bind; [apply no_Goexit_get_T|intros tc].
    apply no_Goexit_bind.
    + destruct (Failed tc); [apply no_Goexit_with_T_modify|done].
    + intros _. apply no_Goexit_bind; [apply no_Goexit_get_T|done].
Qed.

(** [Run] with a body that starts with one call on the sub-test. *)
Lemma Run_first_call p nm (m : M T unit) (k : ptr -> W unit) w t :
  heap w !! p = Some t ->
  let c := length (heap w) in
  let w1 := world_at_start p t nm w in
  let child := subtest_of t (clock (hst w) (ticks w)) (os_TempDir (hst w))
                          (newSubTestName t nm) in
  let w2 := set_heap (<[c := snd (m child)]> (heap w1)) w1 in
  Run p nm (fun c => with_T c m;; k c) w =
  match fst (m child) with
  | Ret _ => (Go (k c);; Run_end p c) w2
  | Goexit => Run_end p c w2
  | Panic e => (Panic e, w2)
  end.
Proof.
  intros Hp c w1 child w2. rewrite (Run_run p nm _ w t Hp). fold c w1.
  pose proof (world_at_start_child p t nm w Hp) as Hc. fold c w1 child in Hc.
  pose proof (with_T_run c m w1 child Hc) as Hm. fold w2 in Hm.
  unfold mbind at 1, M_bind at 1. unfold Go at 1.
  unfold mbind at 1, M_bind at 1. rewrite Hm.
  by destruct (fst (m child)) as [[]| |e].
Qed.

(** X13. A sub-test that skips does not fail its parent: with a body that
    calls [Skip], [Run] returns [true]; the sub-test is skipped, carries
    the logged line and has no failure; the parent only gains the
    sub-test, its failure counter is as before.  With abort enabled the
    code after [Skip] in the body is not run. *)
Theorem skipped_subtest_passes (w : world) (p : ptr) (t : T) (nm : string)
    (args : list Fmt.value) (k : ptr -> W unit) :
  heap w !! p = Some t ->
  abort t = true ->
  let c := length (heap w) in
  let d := newSubTestName t nm in
  exists w' tc,
    Run p nm (fun c => with_T c (Skip args);; k c) w = (Ret true, w') /\
    heap w' !! c = Some tc /\
    Skipped tc = true /\ Aborted tc = true /\ Failed tc = false /\
    Output tc = [Fmt.Sprintln args] /\
    heap w' !! p = Some (register_subtest d c t) /\
    FailedCount (register_subtest d c t) = FailedCount t /\
    Subtests (register_subtest d c t) = (Subtests t ++ [c])%list.
Proof.
  intros Hp Hab c d.
  assert (Hlt : (p < length (heap w))%nat) by (by eapply lookup_lt_Some).
  pose proof (Run_first_call p nm (Skip args) k w t Hp) as Hrun.
  cbv zeta in Hrun. fold c in Hrun.
  set (child := subtest_of t _ _ _) in Hrun.
  assert (Hskip : Skip args child =
    (Goexit, set_aborted true (set_skipped true
       (set_output (output child ++ [Fmt.Sprintln args])%list child)))).
  { unfold Skip, Log, SkipNow, goexit, mbind, M_bind, modify, get. cbn.
    by rewrite Hab. }
  rewrite Hskip in Hrun. cbn [fst snd] in Hrun.
  set (tc := set_aborted _ _) in Hrun.
  set (w2 := set_heap _ _) in Hrun.
  assert (Hc2 : heap w2 !! c = Some tc).
  { unfold w2. cbn [heap set_heap]. rewrite list_lookup_insert_eq; [done|].
    unfold world_at_start. cbn [heap]. rewrite length_insert, length_app. cbn.
    unfold c. lia. }
  assert (Hp2 : heap w2 !! p = Some (register_subtest d c t)).
  { unfold w2. cbn [heap set_heap]. rewrite list_lookup_insert_ne by (unfold c; lia).
    apply world_at_start_parent, Hp. }
  rewrite (Run_end_run p c w2 tc _ ltac:(unfold c; lia) Hc2 Hp2) in Hrun.
  assert (Hnf : Failed tc = false) by done.
  rewrite Hnf in Hrun. cbn [negb] in Hrun.
  exists w2, tc. repeat (split; [done|]). done.
Qed.

Lemma skipped_subtest_passes_witness :
  exists w',
    Run 0%nat "sub" (fun c => with_T c (Skip [Fmt.VStr "not now"]);;
                              with_T c Fail) demo_world = (Ret true, w').
Proof.
  assert (Hp : heap demo_world !! 0%nat = Some demo_T) by reflexivity.
  destruct (skipped_subtest_passes demo_world 0%nat demo_T "sub"
              [Fmt.VStr "not now"] (fun c => with_T c Fail) Hp eq_refl)
    as (w' & tc & Hrun & _).
  exists w'. exact Hrun.
Defined.

(** X14. [Fatal] in the body of a sub-test, abort enabled: the code that
    follows [Fatal] in the body is not run, [Run] returns [false] to its
    caller (whose goroutine goes on), the sub-test has one failure, is
    aborted and carries the logged line, and the parent's failure counter
    is incremented once. *)
Theorem Fatal_in_subtest (w : world) (p : ptr) (t : T) (nm : string)
    (args : list Fmt.value) (k : ptr -> W unit) :
  heap w !! p = Some t ->
  abort t = true ->
  let c := length (heap w) in
  let d := newSubTestName t nm in
  exists w' tc,
    Run p nm (fun c => with_T c (Fatal args);; k c) w = (Ret false, w') /\
    heap w' !! c = Some tc /\
    FailedCount tc = 1 /\ Aborted tc = true /\ Skipped tc = false /\
    Output tc = [Fmt.Sprintln args] /\
    heap w' !! p = Some (snd (Fail (register_subtest d c t))) /\
    FailedCount (snd (Fail (register_subtest d c t))) =
      Go_int.incr (FailedCount t).
Proof.
  intros Hp Hab c d.
  assert (Hlt : (p < length (heap w))%nat) by (by eapply lookup_lt_Some).
  pose proof (Run_first_call p nm (Fatal args) k w t Hp) as Hrun.
  cbv zeta in Hrun. fold c in Hrun.
  set (child := subtest_of t _ _ _) in Hrun.
  rewrite Fatal_run in Hrun. cbn [fst snd] in Hrun.
  change (abort child) with (abort t) in Hrun. rewrite Hab in Hrun.
  set (tc := set_aborted _ _) in Hrun.
  set (w2 := set_heap _ _) in Hrun.
  assert (Hc2 : heap w2 !! c = Some tc).
  { unfold w2. cbn [heap set_heap]. rewrite list_lookup_insert_eq; [done|].
    unfold world_at_start. cbn [heap]. rewrite length_insert, length_app. cbn.
    unfold c. lia. }
  assert (Hp2 : heap w2 !! p = Some (register_subtest d c t)).
  { unfold w2. cbn [heap set_heap]. rewrite list_lookup_insert_ne by (unfold c; lia).
    apply world_at_start_parent, Hp. }
  rewrite (Run_end_run p c w2 tc _ ltac:(unfold c; lia) Hc2 Hp2) in Hrun.
  assert (Hf : Failed tc = true) by done.
  rewrite Hf in Hrun. cbn [negb] in Hrun.
  eexists _, tc. split; [exact Hrun|].
  split; [cbn [heap set_heap]; by rewrite list_lookup_insert_ne by (unfold c; lia)|].
  repeat (split; [done|]).
  split; [|done]. cbn [heap set_heap]. rewrite list_lookup_insert_eq; [done|].
  by eapply lookup_lt_Some.
Qed.

Lemma Fatal_in_subtest_witness :
  exists w',
    Run 0%nat "sub" (fun c => with_T c (Fatal [Fmt.VStr "boom"]);;
                              with_T c Parallel) demo_world = (Ret false, w').
Proof.
  assert (Hp : heap demo_world !! 0%nat = Some demo_T) by reflexivity.
  destruct (Fatal_in_subtest demo_world 0%nat demo_T "sub"
              [Fmt.VStr "boom"] (fun c => with_T c Parallel) Hp eq_refl)
    as (w' & tc & Hrun & _).
  exists w'. exact Hrun.
Defined.

(** ** Relations kept by every test program *)

Section Exec_frames.

Context (rel : nat -> world -> world -> Prop) `{!Graded rel}.
Hypothesis rel_call : forall p m, frames rel 1 (call p m).
Hypothesis rel_Run_begin : forall p nm, frames rel 0 (Run_begin p nm).
Hypothesis rel_Run_end : forall p c, frames rel 1 (Run_end p c).

Lemma frames_read {A} (m : W A) : (forall w, snd (m w) = w) -> frames rel 0 m.
Proof. intros Hm w. rewrite Hm. apply graded_refl. Qed.

Lemma var_reads scope x w : snd (var scope x w) = w.
Proof. unfold var. by destruct (scope !! x). Qed.

Lemma get_T_reads p w : snd (get_T p w) = w.
Proof. unfold get_T. by destruct (heap w !! p). Qed.

(** What [call], [Run_begin] and [Run_end] keep, every program keeps. *)
Lemma frames_exec_gen pr : forall scope, frames rel (calls pr) (exec pr scope).
Proof.
  induction pr as [|a IHa b IHb|x m|x nm body IHbody onT IHT onF IHF
                   |q x th IHth el IHel|x i body IHbody]; intros scope;
    cbn [exec calls].
  - apply frames_ret, _.
  - apply (frames_bind _ _ _); [apply IHa|intros _; apply IHb].
  - apply (frames_bind rel 0 1); [apply frames_read, var_reads|intros p].
    apply rel_call.
  - apply (frames_bind rel 0 (1 + calls body + calls onT + calls onF));
      [apply frames_read, var_reads|intros p].
    apply (frames_weaken rel (0 + (calls body + 1) + (calls onT + calls onF)));
      [lia|].
    apply (frames_bind _ _ _).
    + unfold Run. apply (frames_bind _ _ _); [apply rel_Run_begin|intros c].
      apply (frames_bind _ _ _); [apply frames_Go, IHbody; apply _|intros _].
      apply rel_Run_end.
    + intros [|].
      * apply (frames_weaken _ (calls onT)); [lia|apply IHT].
      * apply (frames_weaken _ (calls onF)); [lia|apply IHF].
  - apply (frames_bind rel 0 (calls th + calls el));
      [apply frames_read, var_reads|intros p].
    apply (frames_bind rel 0 (calls th + calls el));
      [apply frames_read, get_T_reads|intros t].
    destruct (ask q t).
    + apply (frames_weaken _ (calls th)); [lia|apply IHth].
    + apply (frames_weaken _ (calls el)); [lia|apply IHel].
  - apply (frames_bind rel 0 (calls body));
      [apply frames_read, var_reads|intros p].
    apply (frames_bind rel 0 (calls body));
      [apply frames_read, get_T_reads|intros t].
    destruct (Subtests t !! i); [apply IHbody|].
    apply (frames_weaken _ 0); [lia|]. apply frames_panic, _.
Qed.

End Exec_frames.

(** ** Recorded sequences are append-only *)

Lemma grows_refl t : grows t t.
Proof. by split. Qed.

Lemma grows_trans t1 t2 t3 : grows t1 t2 -> grows t2 t3 -> grows t1 t3.
Proof.
  intros [Ho1 Hh1 Hc1 Hs1 Ht1 Hn1] [Ho2 Hh2 Hc2 Hs2 Ht2 Hn2].
  split; try (by etrans); auto.
Qed.

Global Instance grows_store_graded : Graded grows_store.
Proof.
  split.
  - intros w p t Hp. exists t. split; [done|apply grows_refl].
  - intros j k a b c Hab Hbc p t Hp.
    destruct (Hab p t Hp) as (t1 & Hp1 & H1).
    destruct (Hbc p t1 Hp1) as (t2 & Hp2 & H2).
    exists t2. split; [done|]. by eapply grows_trans.
  - intros j k a b _ Hab. exact Hab.
Qed.

Lemma grows_store_same_heap k w w' : heap w' = heap w -> grows_store k w w'.
Proof. intros Hh p t Hp. exists t. rewrite Hh. split; [done|apply grows_refl]. Qed.

Lemma grows_store_with_T {A} k p (m : M T A) :
  (forall t, grows t (snd (m t))) -> frames grows_store k (with_T p m).
Proof.
  intros Hm w. unfold with_T.
  destruct (heap w !! p) as [t|] eqn:Hp; [|by apply grows_store_same_heap].
  specialize (Hm t). destruct (m t) as [r t']. cbn in *.
  intros q tq Hq. cbn. destruct (decide (q = p)) as [->|Hne].
  - exists t'. rewrite list_lookup_insert_eq by (by eapply lookup_lt_Some).
    split; [done|]. rewrite Hp in Hq. by injection Hq as <-.
  - exists tq. rewrite list_lookup_insert_ne by done.
    split; [done|apply grows_refl].
Qed.

Lemma grows_call_T m t : grows t (snd (call_T m t)).
Proof.
  destruct m; run_call_T;
    try (destruct (abort t)); try (destruct caller); try (destruct (negb _));
    split; cbn; try done; try (by apply prefix_app_r).
Qed.

Lemma grows_store_TestingT_Fatal r args :
  frames grows_store 1 (TestingT_Fatal r args).
Proof.
  destruct r as [q|id exits]; cbn [TestingT_Fatal].
  - apply grows_store_with_T. apply (grows_call_T (mFatal args)).
  - intros w. apply grows_store_same_heap.
    unfold mbind, M_bind, modify. by destruct exits.
Qed.

Lemma grows_store_TempDir p : frames grows_store 1 (TempDir p).
Proof.
  unfold TempDir.
  apply (frames_bind grows_store 0 1); [apply frames_read, get_T_reads; apply _|].
  intros t. apply (frames_bind grows_store 0 1).
  { intros w. apply grows_store_same_heap. by destruct (mkdirTempFunc t). }
  intros [dir err]. apply (frames_bind grows_store 1 0).
  { destruct err; [|apply (frames_weaken _ 0); [lia|apply frames_ret, _]].
    unfold internalError.
    apply (frames_bind grows_store 0 1);
      [apply frames_read, get_T_reads; apply _|intros t0].
    destruct (testingT t0); [apply grows_store_TestingT_Fatal|].
    apply (frames_weaken _ 0); [lia|apply frames_panic, _]. }
  intros _. apply (frames_bind grows_store 0 0); [|intros _; apply frames_ret, _].
  apply grows_store_with_T. intros t0. split; cbn; try done.
  by apply prefix_app_r.
Qed.

Lemma grows_store_call p m : frames grows_store 1 (call p m).
Proof.
  destruct m; cbv beta iota delta [call];
    try (apply grows_store_with_T; intros t; apply (grows_call_T _ t)).
  apply (frames_bind grows_store 1 0);
    [apply grows_store_TempDir|intros _; apply frames_ret, _].
Qed.

Lemma used_insert m n d : used m n = true -> used (<[d := true]> m) n = true.
Proof.
  unfold used. intros H. destruct (decide (d = n)) as [->|Hne].
  - by rewrite lookup_insert_eq.
  - by rewrite lookup_insert_ne.
Qed.

Lemma grows_register d c t : grows t (register_subtest d c t).
Proof.
  split; cbn; try done; [by apply prefix_app_r|]. intros n. apply used_insert.
Qed.

Lemma grows_store_Run_begin p nm : frames grows_store 0 (Run_begin p nm).
Proof.
  intros w. destruct (heap w !! p) as [t|] eqn:Hp.
  - rewrite (Run_begin_run p nm w t Hp). cbn [snd].
    assert (Hlt : (p < length (heap w))%nat) by (by eapply lookup_lt_Some).
    intros q tq Hq. unfold world_at_start. cbn [heap].
    assert (Hltq : (q < length (heap w))%nat) by (by eapply lookup_lt_Some).
    destruct (decide (q = p)) as [->|Hne].
    + rewrite list_lookup_insert_eq by (rewrite length_app; lia).
      eexists. split; [done|]. rewrite Hp in Hq. injection Hq as <-.
      apply grows_register.
    + rewrite list_lookup_insert_ne by done. rewrite lookup_app_l by done.
      exists tq. split; [done|apply grows_refl].
  - apply grows_store_same_heap. unfold Run_begin, get_T, mbind, M_bind.
    by rewrite Hp.
Qed.

Lemma grows_store_Run_end p c : frames grows_store 1 (Run_end p c).
Proof.
  unfold Run_end.
  apply (frames_bind grows_store 0 1); [apply frames_read, get_T_reads; apply _|].
  intros tc. apply (frames_bind grows_store 1 0).
  - destruct (Failed tc); [|apply (frames_weaken _ 0); [lia|apply frames_ret, _]].
    apply grows_store_with_T. intros t. apply (grows_call_T mFail).
  - intros _. apply (frames_bind grows_store 0 0);
      [apply frames_read, get_T_reads; apply _|intros; apply frames_ret, _].
Qed.

(** X15. Whatever a test program does, what a double has recorded is only
    ever appended to: [Output()], [HelperNames()], [CleanupNames()],
    [Subtests()] and [TempDirs()] before the program are prefixes of what
    they are after it, and a sub-test name that was in use stays in use. *)
Theorem records_are_append_only (pr : prog) (scope : list ptr) (w : world)
    (p : ptr) (t : T) :
  heap w !! p = Some t ->
  exists t', heap (snd (exec pr scope w)) !! p = Some t' /\
    Output t `prefix_of` Output t' /\
    HelperNames t `prefix_of` HelperNames t' /\
    CleanupNames t `prefix_of` CleanupNames t' /\
    Subtests t `prefix_of` Subtests t' /\
    TempDirs t `prefix_of` TempDirs t' /\
    (forall n, used (subtestNames t) n = true -> used (subtestNames t') n = true).
Proof.
  intros Hp.
  destruct (frames_exec_gen grows_store grows_store_call grows_store_Run_begin
              grows_store_Run_end pr scope w p t Hp) as (t' & Hp' & [? ? ? ? ? ?]).
  exists t'. repeat (split; [done|]). done.
Qed.

Lemma records_are_append_only_witness :
  let pr := PSeq (PCall 0 (mLog [Fmt.VStr "one"]))
                 (PRun 0 "sub" (PCall 1 (mError [Fmt.VStr "two"])) PDone PDone) in
  exists t', heap (snd (exec pr [0%nat] demo_world)) !! 0%nat = Some t' /\
    Output demo_T `prefix_of` Output t'.
Proof.
  intros pr.
  assert (Hp : heap demo_world !! 0%nat = Some demo_T) by reflexivity.
  destruct (records_are_append_only pr [0%nat] demo_world 0%nat demo_T Hp)
    as (t' & Hp' & Hout & _).
  exists t'. split; [exact Hp'|exact Hout].
Defined.

(** ** Well-formed stores *)

Global Instance keeps_wf_graded : Graded keeps_wf.
Proof.
  split.
  - by intros w Hw.
  - intros j k a b c Hab Hbc Ha. by apply Hbc, Hab.
  - by intros j k a b _ Hab.
Qed.

Lemma keeps_wf_same_heap k w w' : heap w' = heap w -> keeps_wf k w w'.
Proof. intros Hh Hw p t. rewrite Hh. apply Hw. Qed.

(** A store whose doubles have kept their shape is as well-formed as it was. *)
Lemma wf_same_shape (h h' : list T) :
  length h' = length h ->
  (forall x t, h !! x = Some t -> exists t', h' !! x = Some t' /\ same_shape t t') ->
  (forall p t, h !! p = Some t -> wf_T h p t) ->
  forall p t', h' !! p = Some t' -> wf_T h' p t'.
Proof.
  intros Hlen Hfw Hwf.
  assert (Hbw : forall x t', h' !! x = Some t' ->
            exists t, h !! x = Some t /\ same_shape t t').
  { intros x t' Hx'. assert (Hlt : (x < length h)%nat)
      by (rewrite <- Hlen; by eapply lookup_lt_Some).
    destruct (lookup_lt_is_Some_2 h x Hlt) as [t Hx].
    destruct (Hfw x t Hx) as (t'' & Hx'' & Hs).
    exists t. split; [done|]. rewrite Hx' in Hx''. by injection Hx'' as <-. }
  intros p t' Hp'. destruct (Hbw p t' Hp') as (t & Hp & Hn & Hr & Hs & Hu).
  destruct (Hwf p t Hp) as [Wn Wr Wc Ws]. split.
  - by rewrite Hn.
  - intros q. rewrite Hr. apply Wr.
  - intros i c. rewrite Hs. intros Hi.
    destruct (Wc i c Hi) as (Hlt & tc & d & Hc & Hd & Hname).
    split; [done|]. destruct (Hfw c tc Hc) as (tc' & Hc' & Hnc & _).
    exists tc', d. split; [done|]. rewrite Hu, Hn, Hnc. done.
  - intros i j ci cj ti' tj' Hij. rewrite Hs. intros Hi Hj Hci' Hcj'.
    destruct (Hbw ci ti' Hci') as (ti & Hci & Hni & _).
    destruct (Hbw cj tj' Hcj') as (tj & Hcj & Hnj & _).
    rewrite Hni, Hnj. by apply (Ws i j ci cj).
Qed.

Lemma keeps_wf_with_T {A} k p (m : M T A) :
  (forall t, same_shape t (snd (m t))) -> frames keeps_wf k (with_T p m).
Proof.
  intros Hm w. unfold with_T.
  destruct (heap w !! p) as [t|] eqn:Hp; [|by apply keeps_wf_same_heap].
  specialize (Hm t). destruct (m t) as [r t']. cbn in *.
  intros Hw. unfold wf_store. cbn [heap set_heap].
  apply (wf_same_shape (heap w)); [apply length_insert| |exact Hw].
  intros x tx Hx. destruct (decide (x = p)) as [->|Hne].
  - exists t'. rewrite list_lookup_insert_eq by (by eapply lookup_lt_Some).
    split; [done|]. rewrite Hp in Hx. by injection Hx as <-.
  - exists tx. by rewrite list_lookup_insert_ne.
Qed.

Lemma same_shape_call_T m t : same_shape t (snd (call_T m t)).
Proof.
  destruct m; run_call_T;
    try (destruct (abort t)); try (destruct caller); try (destruct (negb _));
    done.
Qed.

Lemma keeps_wf_TestingT_Fatal r args : frames keeps_wf 1 (TestingT_Fatal r args).
Proof.
  destruct r as [q|id exits]; cbn [TestingT_Fatal].
  - apply keeps_wf_with_T. apply (same_shape_call_T (mFatal args)).
  - intros w. apply keeps_wf_same_heap.
    unfold mbind, M_bind, modify. by destruct exits.
Qed.

Lemma keeps_wf_TempDir p : frames keeps_wf 1 (TempDir p).
Proof.
  unfold TempDir.
  apply (frames_bind keeps_wf 0 1); [apply frames_read, get_T_reads; apply _|].
  intros t. apply (frames_bind keeps_wf 0 1).
  { intros w. apply keeps_wf_same_heap. by destruct (mkdirTempFunc t). }
  intros [dir err]. apply (frames_bind keeps_wf 1 0).
  { destruct err; [|apply (frames_weaken _ 0); [lia|apply frames_ret, _]].
    unfold internalError.
    apply (frames_bind keeps_wf 0 1);
      [apply frames_read, get_T_reads; apply _|intros t0].
    destruct (testingT t0); [apply keeps_wf_TestingT_Fatal|].
    apply (frames_weaken _ 0); [lia|apply frames_panic, _]. }
  intros _. apply (frames_bind keeps_wf 0 0); [|intros _; apply frames_ret, _].
  by apply keeps_wf_with_T.
Qed.

Lemma keeps_wf_call p m : frames keeps_wf 1 (call p m).
Proof.
  destruct m; cbv beta iota delta [call];
    try (apply keeps_wf_with_T; intros t; apply (same_shape_call_T _ t)).
  apply (frames_bind keeps_wf 1 0);
    [apply keeps_wf_TempDir|intros _; apply frames_ret, _].
Qed.

Lemma keeps_wf_Run_end p c : frames keeps_wf 1 (Run_end p c).
Proof.
  unfold Run_end.
  apply (frames_bind keeps_wf 0 1); [apply frames_read, get_T_reads; apply _|].
  intros tc. apply (frames_bind keeps_wf 1 0).
  - destruct (Failed tc); [|apply (frames_weaken _ 0); [lia|apply frames_ret, _]].
    apply keeps_wf_with_T. intros t. apply (same_shape_call_T mFail).
  - intros _. apply (frames_bind keeps_wf 0 0);
      [apply frames_read, get_T_reads; apply _|intros; apply frames_ret, _].
Qed.

Lemma child_name_inj parent d d' :
  child_name parent d = child_name parent d' -> d = d'.
Proof.
  unfold child_name. destruct (String.eqb parent ""); [done|].
  intros H. by apply (inj (String.app "/")), (inj (String.app parent)).
Qed.

(** The world in which a body starts is well-formed if the world in which
    [Run] was called is. *)
Lemma wf_world_at_start p t nm w :
  heap w !! p = Some t -> wf_store w -> wf_store (world_at_start p t nm w).
Proof.
  intros Hp Hw.
  set (h := heap w). set (n := length h). set (d := newSubTestName t nm).
  set (child := subtest_of t (clock (hst w) (ticks w)) (os_TempDir (hst w)) d).
  set (tp := register_subtest d n t).
  assert (Hh' : heap (world_at_start p t nm w) = <[p := tp]> (h ++ [child])%list) by done.
  assert (Hpn : (p < n)%nat) by (by eapply lookup_lt_Some).
  destruct (Hw p t Hp) as [Wn Wr Wc Ws]. fold h in Wc, Ws.
  (* lookups in the new store *)
  assert (Lchild : <[p := tp]> (h ++ [child])%list !! n = Some child).
  { rewrite list_lookup_insert_ne by lia. rewrite lookup_app_r by (unfold n; lia).
    by rewrite Nat.sub_diag. }
  assert (Lparent : <[p := tp]> (h ++ [child])%list !! p = Some tp).
  { rewrite list_lookup_insert_eq; [done|]. rewrite length_app. unfold n in Hpn. lia. }
  assert (Lold : forall x, (x < n)%nat -> x <> p ->
            <[p := tp]> (h ++ [child])%list !! x = h !! x).
  { intros x Hx Hne. rewrite list_lookup_insert_ne by done.
    by rewrite lookup_app_l. }
  assert (Lname : forall x u0, h !! x = Some u0 ->
            exists u, <[p := tp]> (h ++ [child])%list !! x = Some u /\ name u = name u0).
  { intros x u0 Hx. assert (x < n)%nat by (by eapply lookup_lt_Some).
    destruct (decide (x = p)) as [->|Hne].
    - exists tp. split; [done|]. fold h in Hp. rewrite Hp in Hx. by injection Hx as <-.
    - exists u0. split; [|done]. by rewrite Lold. }
  assert (Lback : forall x u, (x < n)%nat ->
            <[p := tp]> (h ++ [child])%list !! x = Some u ->
            exists u0, h !! x = Some u0 /\ name u = name u0).
  { intros x u Hx Hu. destruct (lookup_lt_is_Some_2 h x Hx) as [u0 Hu0].
    exists u0. split; [done|]. destruct (Lname x u0 Hu0) as (u' & Hu' & Hn).
    rewrite Hu in Hu'. by injection Hu' as <-. }
  assert (Hchild_name : name child = child_name (name t) d).
  { unfold child. rewrite subtest_of_name by apply newSubTestName_no_space.
    unfold child_name. by rewrite (ReplaceAll_id (name t)). }
  assert (Hfresh : used (subtestNames t) d = false) by apply newSubTestName_unused.
  intros x u. rewrite Hh'. intros Hx.
  assert (Hxn : (x < S n)%nat).
  { apply lookup_lt_Some in Hx. rewrite length_insert, length_app in Hx.
    cbn in Hx. unfold n. lia. }
  destruct (decide (x = n)) as [->|Hxne].
  - (* the child *)
    rewrite Lchild in Hx. injection Hx as <-. split.
    + apply subtest_of_no_space.
    + intros q Hq. change (testingT child) with (testingT t) in Hq.
      specialize (Wr q Hq). lia.
    + intros i c Hi. change (subtests child) with (@nil nat) in Hi.
      by rewrite lookup_nil in Hi.
    + intros i j ci cj ti tj _ Hi. change (subtests child) with (@nil nat) in Hi.
      by rewrite lookup_nil in Hi.
  - destruct (decide (x = p)) as [->|Hxp].
    + (* the parent *)
      rewrite Lparent in Hx. injection Hx as <-.
      assert (Hsub : forall i c, subtests tp !! i = Some c ->
                (subtests t !! i = Some c /\ (c < n)%nat /\ c <> p) \/
                (i = length (subtests t) /\ c = n)).
      { intros i c Hi. change (subtests tp) with (subtests t ++ [n])%list in Hi.
        apply lookup_app_Some in Hi as [Hi|[Hge Hi]].
        - left. split; [done|]. destruct (Wc i c Hi) as (Hlt & tc & _ & Hc & _).
          apply lookup_lt_Some in Hc. fold n in Hc. split; lia.
        - right. apply list_lookup_singleton_Some in Hi as [Hi0 <-].
          split; [lia|done]. }
      split.
      * exact Wn.
      * exact Wr.
      * intros i c Hi. destruct (Hsub i c Hi) as [(Hi0 & Hcn & Hcp)|[_ ->]].
        -- destruct (Wc i c Hi0) as (Hlt & tc & d' & Hc & Hd' & Hname).
           split; [done|]. exists tc, d'. rewrite Lold by done.
           split; [done|]. split; [by apply used_insert|done].
        -- split; [done|]. exists child, d. split; [done|].
           split; [|done]. unfold used. cbn. by rewrite lookup_insert_eq.
      * intros i j ci cj ti tj Hij Hi Hj Hci Hcj.
        destruct (Hsub i ci Hi) as [(Hi0 & Hin & Hip)|[Hil ->]];
          destruct (Hsub j cj Hj) as [(Hj0 & Hjn & Hjp)|[Hjl ->]].
        -- rewrite Lold in Hci, Hcj by done. by apply (Ws i j ci cj).
        -- rewrite Lold in Hci by done. rewrite Lchild in Hcj. injection Hcj as <-.
           destruct (Wc i ci Hi0) as (_ & tc & d' & Hc & Hd' & Hname).
           rewrite Hci in Hc. injection Hc as <-.
           rewrite Hname, Hchild_name. intros Heq.
           apply child_name_inj in Heq. congruence.
        -- rewrite Lold in Hcj by done. rewrite Lchild in Hci. injection Hci as <-.
           destruct (Wc j cj Hj0) as (_ & tc & d' & Hc & Hd' & Hname).
           rewrite Hcj in Hc. injection Hc as <-.
           rewrite Hname, Hchild_name. intros Heq.
           apply child_name_inj in Heq. congruence.
        -- lia.
    + (* any other double *)
      rewrite Lold in Hx by lia. destruct (Hw x u Hx) as [Vn Vr Vc Vs].
      fold h in Vc, Vs. split; [done|done| |].
      * intros i c Hi. destruct (Vc i c Hi) as (Hlt & tc & d' & Hc & Hd' & Hname).
        split; [done|]. destruct (Lname c tc Hc) as (tc' & Hc' & Hn').
        exists tc', d'. split; [done|]. split; [done|]. by rewrite Hn'.
      * intros i j ci cj ti tj Hij Hi Hj Hci Hcj.
        destruct (Vc i ci Hi) as (_ & ui & _ & Hui & _).
        destruct (Vc j cj Hj) as (_ & uj & _ & Huj & _).
        destruct (Lback ci ti ltac:(by eapply lookup_lt_Some) Hci) as (ui' & Hui' & Hni).
        destruct (Lback cj tj ltac:(by eapply lookup_lt_Some) Hcj) as (uj' & Huj' & Hnj).
        rewrite Hni, Hnj. by apply (Vs i j ci cj).
Qed.

Lemma keeps_wf_Run_begin p nm : frames keeps_wf 0 (Run_begin p nm).
Proof.
  intros w. destruct (heap w !! p) as [t|] eqn:Hp.
  - rewrite (Run_begin_run p nm w t Hp). cbn [snd]. intros Hw.
    by apply wf_world_at_start.
  - apply keeps_wf_same_heap. unfold Run_begin, get_T, mbind, M_bind.
    by rewrite Hp.
Qed.

(** Every test program takes a well-formed store to a well-formed one. *)
Lemma wf_store_exec pr scope w : wf_store w -> wf_store (snd (exec pr scope w)).
Proof.
  apply (frames_exec_gen keeps_wf keeps_wf_call keeps_wf_Run_begin
           keeps_wf_Run_end pr scope w).
Qed.

(** A store of doubles fresh from [NewT], each reporting, if at all, to
    an older double or to a reporter of the caller, is well-formed. *)
Lemma wf_store_fresh (w : world) :
  (forall p t, heap w !! p = Some t ->
     subtests t = [] /\ no_space (name t) /\
     forall q, testingT t = Some (MockT q) -> (q < p)%nat) ->
  wf_store w.
Proof.
  intros H p t Hp. destruct (H p t Hp) as (Hs & Hn & Hr). split; [done|done| |].
  - intros i c. rewrite Hs. by rewrite lookup_nil.
  - intros i j ci cj ti tj _. rewrite Hs. by rewrite lookup_nil.
Qed.

Lemma wf_demo_world : wf_store demo_world.
Proof.
  apply wf_store_fresh. intros [|p] t Hp; [|done].
  injection Hp as <-. done.
Qed.

(** X16. In a store built through [NewT] and [Run], and after any test
    program run on it, no two sub-tests of one double have the same name:
    the names the double has handed out are marked as used, and
    [newSubTestName] returns an unused one. *)
Theorem sibling_subtests_have_distinct_names (pr : prog) (scope : list ptr)
    (w : world) (p : ptr) (t : T) (i j : nat) (ci cj : ptr) (ti tj : T) :
  wf_store w ->
  let w' := snd (exec pr scope w) in
  heap w' !! p = Some t ->
  i <> j ->
  Subtests t !! i = Some ci -> Subtests t !! j = Some cj ->
  heap w' !! ci = Some ti -> heap w' !! cj = Some tj ->
  Name ti <> Name tj.
Proof.
  intros Hw w' Hp Hij Hi Hj Hci Hcj.
  pose proof (wf_store_exec pr scope w Hw p t Hp) as [_ _ _ Ws].
  by apply (Ws i j ci cj).
Qed.

Lemma sibling_subtests_have_distinct_names_witness :
  let pr := PSeq (PRun 0 "my test" PDone PDone PDone)
                 (PRun 0 "my_test" PDone PDone PDone) in
  exists ti tj,
    heap (snd (exec pr [0%nat] demo_world)) !! 1%nat = Some ti /\
    heap (snd (exec pr [0%nat] demo_world)) !! 2%nat = Some tj /\
    Name ti <> Name tj.
Proof.
  intros pr.
  destruct (heap (snd (exec pr [0%nat] demo_world)) !! 0%nat) as [t|] eqn:Hp;
    [|vm_compute in Hp; discriminate].
  destruct (heap (snd (exec pr [0%nat] demo_world)) !! 1%nat) as [ti|] eqn:Hci;
    [|vm_compute in Hci; discriminate].
  destruct (heap (snd (exec pr [0%nat] demo_world)) !! 2%nat) as [tj|] eqn:Hcj;
    [|vm_compute in Hcj; discriminate].
  exists ti, tj. split; [reflexivity|]. split; [reflexivity|].
  apply (sibling_subtests_have_distinct_names pr [0%nat] demo_world 0%nat t
           0 1 1%nat 2%nat ti tj wf_demo_world Hp); try done.
  - vm_compute in Hp. by injection Hp as <-.
  - vm_compute in Hp. by injection Hp as <-.
Defined.

(** X17. In such a store every sub-test is a younger double than its
    parent; it is named after its parent: the parent's name, a slash and
    a name the parent has marked as used (that name alone under a parent
    with the empty name); and no name of a double contains a space. *)
Theorem subtests_are_named_after_parent (pr : prog) (scope : list ptr)
    (w : world) (p : ptr) (t : T) :
  wf_store w ->
  let w' := snd (exec pr scope w) in
  heap w' !! p = Some t ->
  no_space (Name t) /\
  forall i c, Subtests t !! i = Some c ->
    (p < c)%nat /\
    exists tc d, heap w' !! c = Some tc /\
      used (subtestNames t) d = true /\
      Name tc = (if String.eqb (Name t) "" then d else Name t +:+ "/" +:+ d).
Proof.
  intros Hw w' Hp.
  pose proof (wf_store_exec pr scope w Hw p t Hp) as [Wn _ Wc _].
  split; [done|]. intros i c Hi. by apply (Wc i c).
Qed.

Lemma subtests_are_named_after_parent_witness :
  let pr := PRun 0 "a b" (PRun 0 "c" PDone PDone PDone) PDone PDone in
  exists t, heap (snd (exec pr [0%nat] demo_world)) !! 1%nat = Some t /\
    no_space (Name t).
Proof.
  intros pr.
  destruct (heap (snd (exec pr [0%nat] demo_world)) !! 1%nat) as [t|] eqn:Hp;
    [|vm_compute in Hp; discriminate].
  exists t. split; [reflexivity|].
  apply (subtests_are_named_after_parent pr [0%nat] demo_world 1%nat t
           wf_demo_world Hp).
Defined.

(** X18. In such a store a double that reports to another double reports
    to an older one, before and after any test program: sub-tests take
    over the reporter of their parent, and nothing else sets it.  So no
    double is its own reporter, and the error of a failed [TempDir] is
    never recorded on the double that failed to create the directory. *)
Theorem reporter_is_an_older_double (pr : prog) (scope : list ptr)
    (w : world) (p : ptr) (t : T) :
  wf_store w ->
  heap (snd (exec pr scope w)) !! p = Some t ->
  (forall q, testingT t = Some (MockT q) -> (q < p)%nat) /\
  testingT t <> Some (MockT p).
Proof.
  intros Hw Hp.
  pose proof (wf_store_exec pr scope w Hw p t Hp) as [_ Wr _ _].
  split; [done|]. intros Hself. specialize (Wr p Hself). lia.
Qed.

Lemma reporter_is_an_older_double_witness :
  let pr := PRun 0 "sub" (PCall 0 mTempDir) PDone PDone in
  exists t, heap (snd (exec pr [0%nat] demo_world)) !! 1%nat = Some t /\
    testingT t <> Some (MockT 1%nat).
Proof.
  intros pr.
  destruct (heap (snd (exec pr [0%nat] demo_world)) !! 1%nat) as [t|] eqn:Hp;
    [|vm_compute in Hp; discriminate].
  exists t. split; [reflexivity|].
  apply (reporter_is_an_older_double pr [0%nat] demo_world 1%nat t
           wf_demo_world Hp).
Defined.

(** ** Failure through nested sub-tests *)

Lemma call_T_failing_run p m w t :
  heap w !! p = Some t -> counts_failure m = true ->
  call p m w = (fst (call_T m t), set_heap (<[p := snd (call_T m t)]> (heap w)) w) /\
  failed (snd (call_T m t)) = Go_int.incr (failed t) /\
  forall e, fst (call_T m t) <> Panic e.
Proof.
  intros Hp Hm. split; [|split].
  - destruct m; try discriminate Hm; cbv beta iota delta [call];
      by rewrite (with_T_run p _ w t Hp).
  - destruct m; try discriminate Hm; run_call_T; try done;
      by destruct (abort t).
  - intros e. destruct m; try discriminate Hm; run_call_T; try done;
      by destruct (abort t).
Qed.

Lemma nested_failure m : counts_failure m = true ->
  forall n scope w p t, heap w !! p = Some t ->
  let r := exec (nested n (PCall 0 m)) (p :: scope) w in
  (forall e, fst r <> Panic e) /\
  ((0 < n)%nat -> fst r = Ret tt) /\
  (exists t', heap (snd r) !! p = Some t' /\
              failed t' = Go_int.incr (failed t)) /\
  (forall q, (q < length (heap w))%nat -> q <> p ->
     heap (snd r) !! q = heap w !! q) /\
  length (heap (snd r)) = (length (heap w) + n)%nat /\
  (forall c tc, (length (heap w) <= c)%nat -> heap (snd r) !! c = Some tc ->
     failed tc = 1).
Proof.
  intros Hm. induction n as [|n IH]; intros scope w p t Hp r.
  - (* the failing call itself *)
    unfold r. cbn [nested exec].
    assert (Hvar : var (p :: scope) 0 w = (Ret p, w)) by done.
    rewrite (bind_Ret _ _ _ _ _ Hvar).
    destruct (call_T_failing_run p m w t Hp Hm) as (Hrun & Hf & Hnp).
    rewrite Hrun. cbn [fst snd heap set_heap].
    assert (Hlt : (p < length (heap w))%nat) by (by eapply lookup_lt_Some).
    split; [done|]. split; [lia|]. split.
    { eexists. split; [by rewrite list_lookup_insert_eq|done]. }
    split; [intros q _ Hq; by rewrite list_lookup_insert_ne|].
    split; [rewrite length_insert; lia|].
    intros c tc Hc Hlook. apply lookup_lt_Some in Hlook.
    rewrite length_insert in Hlook. lia.
  - (* one more sub-test around it *)
    set (c := length (heap w)).
    set (w1 := world_at_start p t "sub" w).
    set (child := subtest_of t (clock (hst w) (ticks w)) (os_TempDir (hst w))
                             (newSubTestName t "sub")).
    assert (Hlt : (p < c)%nat) by (by eapply lookup_lt_Some).
    pose proof (world_at_start_child p t "sub" w Hp) as Hc1.
    pose proof (world_at_start_parent p t "sub" w Hp) as Hp1.
    fold c w1 child in Hc1. fold c w1 in Hp1.
    assert (Hlen1 : length (heap w1) = S c).
    { unfold w1, world_at_start. cbn [heap].
      rewrite length_insert, length_app. cbn. unfold c. lia. }
    destruct (IH (p :: scope) w1 c child Hc1)
      as (Hnp & _ & (tc & Hc2 & Hfc) & Hold & Hlen2 & Hnew).
    set (r1 := exec (nested n (PCall 0 m)) (c :: p :: scope) w1) in *.
    assert (HGo : Go (exec (nested n (PCall 0 m)) (c :: p :: scope)) w1
                  = (Ret tt, snd r1)).
    { unfold Go. fold r1. destruct r1 as [[[]| |e] w2]; try done.
      by destruct (Hnp e). }
    assert (Hp2 : heap (snd r1) !! p = Some (register_subtest (newSubTestName t "sub") c t)).
    { rewrite Hold; [done|lia|lia]. }
    assert (Hfailed : Failed tc = true).
    { unfold Failed. rewrite Hfc. done. }
    assert (Hrun : r = (Ret tt,
              set_heap (<[p := snd (Fail (register_subtest (newSubTestName t "sub") c t))]>
                          (heap (snd r1))) (snd r1))).
    { unfold r. cbn [nested exec].
      assert (Hvar : var (p :: scope) 0 w = (Ret p, w)) by done.
      rewrite (bind_Ret _ _ _ _ _ Hvar).
      unfold mbind at 1, M_bind at 1.
      rewrite (Run_run p "sub" _ w t Hp). fold c w1.
      rewrite (bind_Ret _ _ _ _ _ HGo).
      rewrite (Run_end_run p c (snd r1) tc _ ltac:(lia) Hc2 Hp2).
      by rewrite Hfailed. }
    rewrite Hrun. cbn [fst snd heap set_heap].
    assert (Hlt2 : (p < length (heap (snd r1)))%nat) by (by eapply lookup_lt_Some).
    split; [done|]. split; [done|]. split.
    { eexists. split; [by rewrite list_lookup_insert_eq|done]. }
    split.
    { intros q Hq Hqp. rewrite list_lookup_insert_ne by done.
      rewrite Hold by (fold c in Hq; lia).
      unfold w1, world_at_start. cbn [heap].
      rewrite list_lookup_insert_ne by done. by rewrite lookup_app_l. }
    split; [rewrite length_insert, Hlen2, Hlen1; fold c; lia|].
    intros c' tc' Hc' Hlook. fold c in Hc'.
    rewrite list_lookup_insert_ne in Hlook by lia.
    destruct (decide (c' = c)) as [->|Hne].
    + rewrite Hc2 in Hlook. injection Hlook as <-. by rewrite Hfc.
    + apply (Hnew c' tc'); [lia|done].
Qed.

(** X19. Failure goes up through every level of nesting.  When a failing
    call ([Fail], [FailNow], [Error], [Errorf], [Fatal], [Fatalf]) is made
    on the innermost of [n] nested sub-tests, each of the [n] sub-tests
    ends with a failure count of one, the double at the top gets exactly
    one increment however deep the nesting is, no other double changes,
    and with at least one level of nesting the program returns to its
    caller even if the failing call ends its goroutine. *)
Theorem failure_propagates_through_nesting (m : method) (n : nat)
    (scope : list ptr) (w : world) (p : ptr) (t : T) :
  counts_failure m = true ->
  heap w !! p = Some t ->
  let r := exec (nested n (PCall 0 m)) (p :: scope) w in
  ((0 < n)%nat -> fst r = Ret tt) /\
  (exists t', heap (snd r) !! p = Some t' /\
     FailedCount t' = Go_int.incr (FailedCount t)) /\
  (forall q, (q < length (heap w))%nat -> q <> p ->
     heap (snd r) !! q = heap w !! q) /\
  length (heap (snd r)) = (length (heap w) + n)%nat /\
  (forall c tc, (length (heap w) <= c)%nat -> heap (snd r) !! c = Some tc ->
     FailedCount tc = 1 /\ Failed tc = true).
Proof.
  intros Hm Hp r.
  destruct (nested_failure m Hm n scope w p t Hp)
    as (_ & Hret & Ht & Hold & Hlen & Hnew).
  split; [done|]. split; [done|]. split; [done|]. split; [done|].
  intros c tc Hc Hlook. specialize (Hnew c tc Hc Hlook).
  unfold FailedCount, Failed. by rewrite Hnew.
Qed.

Lemma failure_propagates_through_nesting_witness :
  fst (exec (nested 3 (PCall 0 (mFatal [Fmt.VStr "deep"]))) [0%nat] demo_world)
  = Ret tt.
Proof.
  assert (Hp : heap demo_world !! 0%nat = Some demo_T) by reflexivity.
  destruct (failure_propagates_through_nesting (mFatal [Fmt.VStr "deep"]) 3 []
              demo_world 0%nat demo_T eq_refl Hp) as [Hret _].
  apply Hret. lia.
Defined.

(** ** A sub-test starts clean *)

(** X20. Only the five settings go from the parent to the sub-test: the
    sub-test starts with no failure, not skipped, not aborted, not
    parallel, with nothing logged or recorded and without the parent's
    [mkdirTempFunc], whatever the state of the parent is; and with an
    empty body [Run] returns [true] and leaves the parent's failure state
    as it was. *)
Theorem subtest_starts_clean (w : world) (p : ptr) (t : T) (nm : string) :
  heap w !! p = Some t ->
  let c := length (heap w) in
  let d := newSubTestName t nm in
  exists tc,
    Run p nm (fun _ => mret tt) w = (Ret true, world_at_start p t nm w) /\
    heap (world_at_start p t nm w) !! c = Some tc /\
    config tc = config t /\
    FailedCount tc = 0 /\ Skipped tc = false /\ Aborted tc = false /\
    Paralleled tc = false /\ Output tc = [] /\ HelperNames tc = [] /\
    CleanupNames tc = [] /\ Getenv tc = ∅ /\ Subtests tc = [] /\
    TempDirs tc = [] /\ subtestNames tc = ∅ /\ mkdirTempFunc tc = None /\
    heap (world_at_start p t nm w) !! p = Some (register_subtest d c t) /\
    FailedCount (register_subtest d c t) = FailedCount t.
Proof.
  intros Hp c d.
  pose proof (world_at_start_child p t nm w Hp) as Hc.
  pose proof (world_at_start_parent p t nm w Hp) as Hp1.
  assert (Hlt : (p < length (heap w))%nat) by (by eapply lookup_lt_Some).
  eexists. split; [|split; [exact Hc|]].
  - rewrite (Run_run p nm _ w t Hp).
    assert (HGo : Go (mret tt) (world_at_start p t nm w)
                  = (Ret tt, world_at_start p t nm w)) by done.
    rewrite (bind_Ret _ _ _ _ _ HGo).
    assert (Hne : p <> length (heap w)) by lia.
    by rewrite (Run_end_run p _ _ _ _ Hne Hc Hp1).
  - repeat (split; [done|]). done.
Qed.

Lemma subtest_starts_clean_witness :
  exists w', Run 0%nat "sub" (fun _ => mret tt) demo_world = (Ret true, w').
Proof.
  assert (Hp : heap demo_world !! 0%nat = Some demo_T) by reflexivity.
  destruct (subtest_starts_clean demo_world 0%nat demo_T "sub" Hp)
    as (tc & Hrun & _).
  eexists. exact Hrun.
Defined.

(** ** The loop of [newSubTestName] *)

(** X21. The loop of [newSubTestName] ends: the name returned is not in
    use and holds no space, and when the normalised name is taken, the
    counter appended is at most the number of names in use plus one. *)
Theorem newSubTestName_finds_free_name (t : T) (nm : string) :
  let n0 := Strs.ReplaceAll nm " " "_" in
  let m := subtestNames t in
  used m (newSubTestName t nm) = false /\
  no_space (newSubTestName t nm) /\
  (used m n0 = true ->
   exists i, (1 <= i <= S (size m))%nat /\
     newSubTestName_loop (S (size m)) m n0 1 = Some (candidate n0 i) /\
     newSubTestName t nm = candidate n0 i).
Proof.
  intros n0 m. split; [apply newSubTestName_unused|].
  split; [apply newSubTestName_no_space|].
  intros Hused.
  destruct (newSubTestName_loop_total m n0) as [n Hn].
  destruct (newSubTestName_loop_Some _ _ _ _ _ Hn) as (i & Hi & -> & _).
  exists i. split; [lia|]. split; [done|].
  unfold newSubTestName. fold n0 m. rewrite Hused. cbn [negb]. by rewrite Hn.
Qed.

Lemma newSubTestName_finds_free_name_witness :
  let t := set_subtestNames {[ "a" := true ]} T_zero in
  exists i, (1 <= i <= 2)%nat /\ newSubTestName t "a" = candidate "a" i.
Proof.
  intros t.
  destruct (newSubTestName_finds_free_name t "a") as (_ & _ & Hloop).
  destruct Hloop as (i & Hi & _ & Hname); [reflexivity|].
  exists i. split; [|exact Hname].
  replace (size (subtestNames t)) with 1%nat in Hi by reflexivity. exact Hi.
Defined.

(** ** [stringsUniq] *)

(** X22. Whatever order the map is ranged over, [stringsUniq] returns
    every string of its input exactly once and nothing else; its result is
    as long as the input exactly when the input has no duplicates (which
    is how the test of [TempDir] checks that the directories differ). *)
Theorem stringsUniq_removes_duplicates (strs r : list string) :
  stringsUniq_returns strs r ->
  NoDup r /\
  (forall s, s ∈ r <-> s ∈ strs) /\
  (length r <= length strs)%nat /\
  (length r = length strs <-> NoDup strs) /\
  stringsUniq_returns strs (stringsUniq strs).
Proof.
  unfold stringsUniq_returns, stringsUniq. intros Hr.
  assert (Hnd : NoDup r) by (rewrite Hr; apply NoDup_elements).
  assert (Hmem : forall s, s ∈ r <-> s ∈ strs).
  { intros s. rewrite Hr, elem_of_elements. apply elem_of_list_to_set. }
  assert (Hlen : length r = size (list_to_set strs : gset string)).
  { by rewrite Hr. }
  split; [done|]. split; [done|].
  assert (Hle : (length r <= length strs)%nat).
  { apply submseteq_length, NoDup_submseteq; [done|].
    intros s Hs. by apply Hmem. }
  split; [done|]. split; [|done].
  split.
  - intros Heq.
    assert (Hperm : r ≡ₚ strs).
    { apply submseteq_length_Permutation; [|lia].
      apply NoDup_submseteq; [done|]. intros s Hs. by apply Hmem. }
    by rewrite <- Hperm.
  - intros Hnds. rewrite Hlen. by apply size_list_to_set.
Qed.

Lemma stringsUniq_removes_duplicates_witness :
  (length (stringsUniq ["/tmp/a"; "/tmp/b"; "/tmp/a"]) <= 3)%nat.
Proof.
  assert (Hr : stringsUniq_returns ["/tmp/a"; "/tmp/b"; "/tmp/a"]
                 (stringsUniq ["/tmp/a"; "/tmp/b"; "/tmp/a"]))
    by (unfold stringsUniq_returns, stringsUniq; reflexivity).
  destruct (stringsUniq_removes_duplicates _ _ Hr) as (_ & _ & Hle & _).
  exact Hle.
Defined.

(** ** Entries end in a newline *)

Lemma length_app_string s1 s2 :
  String.length (s1 +:+ s2) = (String.length s1 + String.length s2)%nat.
Proof.
  induction s1 as [|c s1 IH]; [done|].
  change (String c s1 +:+ s2) with (String c (s1 +:+ s2)). cbn. by rewrite IH.
Qed.

Lemma get_app_nl s : String.get (String.length s) (s +:+ Fmt.nl) = Some Fmt.newline.
Proof.
  induction s as [|c s IH]; [done|].
  change (String c s +:+ Fmt.nl) with (String c (s +:+ Fmt.nl)). cbn. exact IH.
Qed.

Lemma ends_in_newline_app s :
  Strs.byte_is (s +:+ Fmt.nl) (String.length (s +:+ Fmt.nl) - 1) Fmt.newline = true.
Proof.
  unfold Strs.byte_is. rewrite length_app_string. cbn [String.length Fmt.nl].
  replace (String.length s + 1 - 1)%nat with (String.length s) by lia.
  rewrite get_app_nl. apply Ascii.eqb_refl.
Qed.

Lemma Sprintf_plain_char c rest args :
  c <> "%"%char ->
  Fmt.Sprintf (String c rest) args = String c (Fmt.Sprintf rest args).
Proof.
  intros Hc. destruct c as [[] [] [] [] [] [] [] []]; try reflexivity.
  by destruct Hc.
Qed.

Lemma Sprintf_plain s :
  Strs.contains s "%" = false -> Fmt.Sprintf s [] = s.
Proof.
  induction s as [|c s IH]; [done|]. cbn [Strs.contains].
  intros H. apply orb_false_iff in H as [Hc Hs].
  apply Ascii.eqb_neq in Hc. rewrite Sprintf_plain_char by done.
  by rewrite IH.
Qed.

(** X23. Every line that [Log] writes ends in a newline; the format that
    [Logf] hands to [fmt.Sprintf] always ends in a newline and adding the
    newline twice is the same as adding it once; so for a text without
    verbs and without operands the entry of [Logf] is that text, ending in
    exactly the newline it had or was given. *)
Theorem entries_end_in_newline (args : list Fmt.value) (format : string) :
  let line := Fmt.Sprintln args in
  let f := Logf_format format in
  Strs.byte_is line (String.length line - 1) Fmt.newline = true /\
  Strs.byte_is f (String.length f - 1) Fmt.newline = true /\
  Logf_format f = f /\
  (Strs.contains format "%" = false ->
   forall t, Output (snd (Logf format [] t)) = (Output t ++ [f])%list).
Proof.
  intros line f.
  assert (Hf : Strs.byte_is f (String.length f - 1) Fmt.newline = true).
  { unfold f, Logf_format.
    destruct (Strs.byte_is format _ _) eqn:Hlast.
    - destruct format; [done|]. cbn [String.length Nat.eqb orb negb]. exact Hlast.
    - rewrite orb_true_r. apply ends_in_newline_app. }
  split; [apply ends_in_newline_app|]. split; [done|]. split.
  - clearbody f. unfold Logf_format. rewrite Hf. by destruct f.
  - intros Hplain t. rewrite Logf_run. cbn [snd Output output set_output].
    fold f. rewrite Sprintf_plain; [done|].
    unfold f, Logf_format. destruct (_ || _); [|done].
    rewrite contains_app, Hplain. done.
Qed.

Lemma entries_end_in_newline_witness :
  Output (snd (Logf "something went wrong" [] T_zero)) =
  ["something went wrong" +:+ Fmt.nl].
Proof.
  destruct (entries_end_in_newline [] "something went wrong") as (_ & _ & _ & H).
  apply (H eq_refl T_zero).
Defined.

(** ** Calls in one goroutine *)

Lemma issue_outcome c t :
  fst (issue c t) = (if is_terminal c && abort t then Goexit else Ret tt) /\
  abort (snd (issue c t)) = abort t.
Proof.
  destruct c; unfold issue, Error, Errorf, Fatal, Fatalf, FailNow, goexit,
    Fail, Log, Logf, mbind, M_bind, modify, get; cbn; try done;
    by destruct (abort t) eqn:E.
Qed.

(** X24. A sequence of failure-reporting calls made one after the other
    in one goroutine, abort enabled: the calls up to and including the
    first of [FailNow], [Fatal], [Fatalf] are made and the rest is not,
    the failure counter is incremented once for each call made, and the
    goroutine ends exactly if there is such a call.  With abort disabled
    every call is made and the sequence returns. *)
Theorem calls_until_first_terminal (cs : list failcall) (t : T) :
  let r := in_sequence cs t in
  (abort t = true ->
     FailedCount (snd r) = Nat.iter (issued cs) Go_int.incr (FailedCount t) /\
     fst r = if existsb is_terminal cs then Goexit else Ret tt) /\
  (abort t = false ->
     FailedCount (snd r) = Nat.iter (length cs) Go_int.incr (FailedCount t) /\
     fst r = Ret tt).
Proof.
  revert t. induction cs as [|c cs IH]; intros t r; [done|].
  unfold r. cbn [in_sequence issued existsb length].
  destruct (issue_outcome c t) as [Hout Hab].
  pose proof (issue_failed c t) as Hf.
  destruct (IH (snd (issue c t))) as [IHt IHf]. rewrite Hab in IHt, IHf.
  unfold mbind, M_bind. destruct (issue c t) as [o t1] eqn:Hi.
  cbn [fst snd] in *. unfold FailedCount in *. split; intros Habort.
  - rewrite Habort, andb_true_r in Hout.
    destruct (is_terminal c); subst o; cbn [fst snd orb].
    + cbn [Nat.iter]. by rewrite Hf.
    + destruct (IHt Habort) as [-> ->]. by rewrite Hf, Nat.iter_succ_r.
  - rewrite Habort, andb_false_r in Hout. subst o. cbn [fst snd].
    destruct (IHf Habort) as [-> ->]. by rewrite Hf, Nat.iter_succ_r.
Qed.

Lemma calls_until_first_terminal_witness :
  let cs := [cError [Fmt.VStr "a"]; cFatal [Fmt.VStr "b"]; cFail] in
  FailedCount (snd (in_sequence cs demo_T)) = 2 /\
  fst (in_sequence cs demo_T) = Goexit.
Proof.
  intros cs.
  destruct (calls_until_first_terminal cs demo_T) as [Hab _].
  destruct (Hab eq_refl) as [Hcount Hout]. split; [|exact Hout].
  rewrite Hcount. reflexivity.
Defined.
